(** * RAG-Assistance: ingestion and hybrid retrieval engine

    A shallow embedding of the chunker ([app/core/chunker.py]), the
    deduplicator ([app/core/deduplication.py]), the FAISS-backed vector store
    ([app/storage/vector_store.py]), the hybrid retriever
    ([app/core/retrieval.py]) and the ingestion pipeline
    ([app/ingest/pipeline.py], [app/storage/document_store.py]), with the
    properties the specification states about them.

    Conventions.  Python [int]s are [Z]; a Python [str] is a [string] whose
    characters are the code points 0..255; a [dict] keyed by slot numbers is a
    [gmap nat _]; a [dict] whose iteration order matters is an association
    list in insertion order; a method that mutates [self] takes the old state
    and returns the new one; a method that can raise returns an outcome that
    carries the state reached when the exception left the method; a Python
    [float] is a binary64 [float], with the rounding of its operations. *)

From Stdlib Require Import Ascii QArith Floats.
From stdpp Require Import gmap strings list fin_maps pretty sorting.

Open Scope Z_scope.

(** A decimal literal of [float_scope] is the binary64 value nearest to it,
    as a literal of Python is. *)
#[global] Set Warnings "-inexact-float".

(** ** Python string primitives used by the sources *)

Module Py.

Definition chars (s : string) : list ascii := String.list_ascii_of_string s.
Definition str (l : list ascii) : string := String.string_of_list_ascii l.

(** [len(s)] *)
Definition len (s : string) : Z := Z.of_nat (String.length s).

(** The empty string *)
Definition empty : string := String.EmptyString.

Definition code (c : ascii) : Z := Z.of_N (N_of_ascii c).

(** [str.isspace] on one character, which is also the class [\s] of [re]
    on [str] patterns: TAB..CR, FS..US, SPACE, NEL and NBSP below 256. *)
Definition isspace (c : ascii) : bool :=
  let n := code c in
  ((9 <=? n) && (n <=? 13)) || ((28 <=? n) && (n <=? 32))
  || (n =? 133) || (n =? 160).

(** [s.strip()] *)
Fixpoint lstrip_chars (l : list ascii) : list ascii :=
  match l with
  | c :: r => if isspace c then lstrip_chars r else l
  | [] => []
  end.

Definition strip_chars (l : list ascii) : list ascii :=
  rev (lstrip_chars (rev (lstrip_chars l))).

Definition strip (s : string) : string := str (strip_chars (chars s)).

(** How a slice bound is clipped: [PySlice_AdjustIndices] with step 1. *)
Definition adjust (n i : Z) : Z :=
  if i <? 0 then Z.max 0 (i + n) else Z.min i n.

(** [s[start:stop]] *)
Definition slice (s : string) (start stop : Z) : string :=
  let n := len s in
  let a := adjust n start in
  let b := adjust n stop in
  str (take (Z.to_nat (b - a)) (drop (Z.to_nat a) (chars s))).

(** The scan of [s.rfind(' ', start, stop)] once the bounds are adjusted:
    the highest index [i] with [a <= i < b] that holds a space, else the
    value carried in [best]. *)
Fixpoint rfind_scan (l : list ascii) (i a b best : Z) : Z :=
  match l with
  | [] => best
  | c :: r =>
      rfind_scan r (i + 1) a b
        (if (a <=? i) && (i <? b) && Ascii.eqb c " " then i else best)
  end.

(** [s.rfind(' ', start, stop)]; the bounds follow CPython's
    [ADJUST_INDICES]: [stop] is clipped to the length, negative bounds
    count from the end and are clipped at 0. *)
Definition rfind_space (s : string) (start stop : Z) : Z :=
  let n := len s in
  let b := if n <? stop then n
           else if stop <? 0 then Z.max 0 (stop + n) else stop in
  let a := if start <? 0 then Z.max 0 (start + n) else start in
  rfind_scan (chars s) 0 a b (-1).

(** [' '.join(parts)] *)
Definition join_space (parts : list string) : string :=
  String.concat " " parts.

(** [c * n] for a one-character string [c] *)
Definition repeat_char (c : ascii) (n : nat) : string :=
  str (replicate n c).

(** [l[:n]] on a list: a negative [n] counts from the end. *)
Definition list_upto {A} (n : Z) (l : list A) : list A :=
  take (Z.to_nat (adjust (Z.of_nat (length l)) n)) l.

(** [l[n:]] on a list. *)
Definition list_from {A} (n : Z) (l : list A) : list A :=
  drop (Z.to_nat (adjust (Z.of_nat (length l)) n)) l.

End Py.

(** ** The chunker: [app/core/chunker.py] *)

Module Chunker.

(** [ChunkConfig], with the defaults of the dataclass. *)
Record ChunkConfig := {
  chunk_size : Z;
  chunk_overlap : Z;
  min_chunk_size : Z;
  respect_sentence_boundary : bool;
  respect_word_boundary : bool
}.

Definition default_config : ChunkConfig :=
  {| chunk_size := 512; chunk_overlap := 50; min_chunk_size := 100;
     respect_sentence_boundary := true; respect_word_boundary := true |}.

(** The dictionaries the two private chunkers build:
    [{"text": ..., "start": ..., "end": ...}]. *)
Record Span := { text : string; start : Z; end_ : Z }.

(** The dictionaries [chunk_text] returns.  Metadata values are the
    integers the callers store under ["document_id"] and ["page_number"]. *)
Record Chunk := {
  c_text : string;
  start_char : Z;
  end_char : Z;
  chunk_index : nat;
  metadata : gmap string Z;
  page_number : option Z;
  embedding_id : option string
}.

(** *** [_clean_text] *)

(** [re.sub(r'\s+', ' ', text)]: [in_run] tells that the previous
    character was white space, whose run has already produced its space. *)
Fixpoint collapse_spaces (in_run : bool) (l : list ascii) : list ascii :=
  match l with
  | [] => []
  | c :: r =>
      if Py.isspace c
      then (if in_run then collapse_spaces true r
            else " "%char :: collapse_spaces true r)
      else c :: collapse_spaces false r
  end.

(** The class [[\x00-\x08\x0b\x0c\x0e-\x1f\x7f-\x9f]]. *)
Definition is_control (c : ascii) : bool :=
  let n := Py.code c in
  ((0 <=? n) && (n <=? 8)) || (n =? 11) || (n =? 12)
  || ((14 <=? n) && (n <=? 31)) || ((127 <=? n) && (n <=? 159)).

Definition _clean_text (t : string) : string :=
  let t1 := collapse_spaces false (Py.chars t) in
  let t2 := List.filter (fun c => negb (is_control c)) t1 in
  Py.str (Py.strip_chars t2).

(** *** [_chunk_by_sentences] *)

Definition is_terminal (c : ascii) : bool :=
  Ascii.eqb c "." || Ascii.eqb c "!" || Ascii.eqb c "?".

Definition starts_with_space (l : list ascii) : bool :=
  match l with
  | c :: _ => Py.isspace c
  | [] => false
  end.

(** [re.compile(r'[.!?]\s+').split(text)]: the pieces between the matches,
    the matched punctuation and white space dropped.  [skipping] holds
    while the white space of a match is being consumed; [cur] is the piece
    read so far, reversed. *)
Fixpoint split_scan (skipping : bool) (cur : list ascii) (l : list ascii)
  : list string :=
  match l with
  | [] => [Py.str (rev cur)]
  | c :: r =>
      if skipping && Py.isspace c then split_scan true cur r
      else if is_terminal c && starts_with_space r
           then Py.str (rev cur) :: split_scan true [] r
           else split_scan false (c :: cur) r
  end.

Definition sentence_split (t : string) : list string :=
  split_scan false [] (Py.chars t).

(** The inner loop [for sent in reversed(current_chunk)], run on the
    reversed chunk: sentences are put in front of [acc] until their sizes
    reach the overlap. *)
Fixpoint overlap_loop (overlap : Z) (rev_chunk : list string)
    (overlap_size : Z) (acc : list string) : list string :=
  match rev_chunk with
  | [] => acc
  | sent :: rest =>
      let overlap_size' := overlap_size + Py.len sent in
      let acc' := sent :: acc in
      if overlap <=? overlap_size' then acc'
      else overlap_loop overlap rest overlap_size' acc'
  end.

Definition sum_len (l : list string) : Z :=
  foldr (fun s acc => Py.len s + acc) 0 l.

(** The local variables of [_chunk_by_sentences]. *)
Record SentState := {
  chunks : list Span;
  current_chunk : list string;
  current_size : Z;
  start_pos : Z
}.

Definition span_of (sents : list string) (pos : Z) : Span :=
  let chunk_text := Py.join_space sents in
  {| text := chunk_text; start := pos; end_ := pos + Py.len chunk_text |}.

(** One iteration of [for i, sentence in enumerate(sentences)]. *)
Definition sentence_step (cfg : ChunkConfig) (st : SentState)
    (sentence : string) : SentState :=
  let sentence := Py.strip sentence in
  if String.eqb sentence Py.empty then st
  else
    let sentence_size := Py.len sentence in
    let st1 :=
      if (chunk_size cfg <? current_size st + sentence_size)
         && negb (bool_decide (current_chunk st = []))
      then
        let sp := span_of (current_chunk st) (start_pos st) in
        let chunk_len := Py.len (text sp) in
        if 0 <? chunk_overlap cfg then
          let kept :=
            overlap_loop (chunk_overlap cfg) (rev (current_chunk st)) 0 [] in
          {| chunks := chunks st ++ [sp];
             current_chunk := kept;
             current_size := sum_len kept;
             start_pos := start_pos st + chunk_len - sum_len kept |}
        else
          {| chunks := chunks st ++ [sp];
             current_chunk := [];
             current_size := 0;
             start_pos := start_pos st + chunk_len + 1 |}
      else st in
    {| chunks := chunks st1;
       current_chunk := current_chunk st1 ++ [sentence];
       current_size := current_size st1 + sentence_size;
       start_pos := start_pos st1 |}.

Definition sentence_loop (cfg : ChunkConfig) (sentences : list string)
  : SentState :=
  foldl (sentence_step cfg)
    {| chunks := []; current_chunk := []; current_size := 0;
       start_pos := 0 |}
    sentences.

Definition finish_sentences (st : SentState) : list Span :=
  if bool_decide (current_chunk st = []) then chunks st
  else chunks st ++ [span_of (current_chunk st) (start_pos st)].

Definition _chunk_by_sentences (cfg : ChunkConfig) (t : string)
  : list Span :=
  finish_sentences (sentence_loop cfg (sentence_split t)).

(** *** [_chunk_by_size] *)

(** The variables that live across iterations of the [while] loop. *)
Record SizeState := { sz_chunks : list Span; sz_start : Z }.

(** What one pass through the loop does: run again from a new state, or
    leave the loop (its condition is false, or [break]). *)
Inductive Step :=
| Again (st : SizeState)
| Leave (result : list Span).

Definition size_step (cfg : ChunkConfig) (t : string) (st : SizeState)
  : Step :=
  let text_len := Py.len t in
  let start0 := sz_start st in
  if negb (start0 <? text_len) then Leave (sz_chunks st)
  else
    let end0 := Z.min (start0 + chunk_size cfg) text_len in
    let end1 :=
      if respect_word_boundary cfg && (end0 <? text_len) then
        let last_space := Py.rfind_space t start0 end0 in
        if start0 <? last_space then last_space else end0
      else end0 in
    let chunk_text := Py.strip (Py.slice t start0 end1) in
    let chunks1 :=
      if min_chunk_size cfg <=? Py.len chunk_text
      then sz_chunks st
             ++ [{| text := chunk_text; start := start0; end_ := end1 |}]
      else sz_chunks st in
    if text_len <=? end1 then Leave chunks1
    else
      let start1 := end1 - chunk_overlap cfg in
      (* [if start <= chunks[-1]["start"] if chunks else 0:] is the
         conditional expression [(start <= ...) if chunks else 0] *)
      let guard :=
        match last chunks1 with
        | Some c => start1 <=? start c
        | None => false
        end in
      Again {| sz_chunks := chunks1;
               sz_start := if guard then end1 else start1 |}.

(** The [while] loop, cut after [fuel] passes: [None] when the loop is
    still running then. *)
Fixpoint size_loop (fuel : nat) (cfg : ChunkConfig) (t : string)
    (st : SizeState) : option (list Span) :=
  match fuel with
  | O => None
  | S fuel' =>
      match size_step cfg t st with
      | Leave result => Some result
      | Again st' => size_loop fuel' cfg t st'
      end
  end.

Definition _chunk_by_size (fuel : nat) (cfg : ChunkConfig) (t : string)
  : option (list Span) :=
  size_loop fuel cfg t {| sz_chunks := []; sz_start := 0 |}.

(** *** [chunk_text] *)

Definition decorate (md : option (gmap string Z)) (i : nat) (sp : Span)
  : Chunk :=
  {| c_text := text sp;
     start_char := start sp;
     end_char := end_ sp;
     chunk_index := i;
     metadata := default ∅ md;
     page_number := md ≫= (fun m => m !! "page_number"%string);
     embedding_id := None |}.

(** [chunk_text(text, metadata)].  [fuel] bounds the passes of the
    size-based loop and is not used in sentence mode. *)
Definition chunk_text (fuel : nat) (cfg : ChunkConfig) (t : string)
    (md : option (gmap string Z)) : option (list Chunk) :=
  if String.eqb t Py.empty || (Py.len (Py.strip t) <? min_chunk_size cfg)
  then Some []
  else
    let t := _clean_text t in
    spans ← (if respect_sentence_boundary cfg
             then Some (_chunk_by_sentences cfg t)
             else _chunk_by_size fuel cfg t);
    Some (imap (decorate md) spans).

End Chunker.

(** ** The deduplicator: [app/core/deduplication.py] *)

Module Dedup.

Section WithLibraries.

(** [hashlib.sha256(text.encode()).hexdigest()] *)
Variable sha256 : string -> string.

(** The MinHash signature built from the lower-cased words of a text
    ([MinHash(num_perm=128)] updated with every word). *)
Variable Signature : Type.
Variable minhash : string -> Signature.

(** Whether [MinHashLSH.query] reports an indexed signature for a queried
    one (they share a band bucket). *)
Variable collide : Signature -> Signature -> bool.

(** [TfidfVectorizer.fit_transform] followed by [cosine_similarity]:
    [None] when the vectorizer raises (for instance on an empty
    vocabulary), else the entries of the similarity matrix. *)
Variable tfidf_cosine : list string -> option (nat -> nat -> Q).

(** The state of datasketch's [MinHashLSH] the class relies on: the keys
    inserted so far with their signatures, in insertion order. *)
Definition LSH := list (string * Signature).

(** [lsh.query(minhash)]: the keys whose signature collides. *)
Definition lsh_query (lsh : LSH) (m : Signature) : list string :=
  map fst (List.filter (fun e => collide (snd e) m) lsh).

(** [lsh.insert(key, minhash)].  datasketch checks the key first
    ([check_duplication=True] is its default) and raises
    [ValueError("The given key already exists")] for a key that is
    already indexed: that is the [None] here. *)
Definition lsh_insert (lsh : LSH) (key : string) (m : Signature)
  : option LSH :=
  if bool_decide (key ∈ map fst lsh) then None
  else Some (lsh ++ [(key, m)]).

(** The attributes of a [Deduplicator] that its methods read or write. *)
Record Deduplicator := {
  threshold : Q;
  lsh : LSH;
  seen_hashes : gset string
}.

(** [Deduplicator(threshold)] *)
Definition new (thr : Q) : Deduplicator :=
  {| threshold := thr; lsh := []; seen_hashes := ∅ |}.

(** An outcome of a method that can raise. *)
Inductive Outcome (A : Type) :=
| Returned (a : A) (d : Deduplicator)
| Raised (exn : string) (d : Deduplicator).
Arguments Returned {A} a d.
Arguments Raised {A} exn d.

(** [is_duplicate_exact] *)
Definition is_duplicate_exact (t : string) (d : Deduplicator)
  : bool * Deduplicator :=
  let text_hash := sha256 t in
  if bool_decide (text_hash ∈ seen_hashes d) then (true, d)
  else (false, {| threshold := threshold d; lsh := lsh d;
                  seen_hashes := {[text_hash]} ∪ seen_hashes d |}).

(** The decimal digits of a natural number, as [f"{n}"] prints it. *)
Definition digits (n : nat) : string := pretty n.

(** [is_duplicate_fuzzy] *)
Definition is_duplicate_fuzzy (t : string) (d : Deduplicator)
  : Outcome (bool * Q) :=
  let m := minhash t in
  match lsh_query (lsh d) m with
  | _ :: _ => Returned (true, threshold d) d
  | [] =>
      let doc_id := ("doc_" +:+ digits (size (seen_hashes d)))%string in
      match lsh_insert (lsh d) doc_id m with
      | None => Raised "ValueError" d
      | Some lsh' =>
          Returned (false, 0%Q)
            {| threshold := threshold d; lsh := lsh';
               seen_hashes := seen_hashes d |}
      end
  end.

(** The inner loop of [find_similar_chunks]: the [j] in
    [range(i + 1, n)] with [similarity_matrix[i, j] >= threshold]. *)
Definition similar_after (sim : nat -> nat -> Q) (thr : Q) (n i : nat)
  : list nat :=
  List.filter (fun j => Qle_bool thr (sim i j)) (seq (S i) (n - S i)).

(** One pass of [for i in range(len(chunks))]; the state is
    [(similar_groups, processed)]. *)
Definition group_step (sim : nat -> nat -> Q) (thr : Q) (n : nat)
    (acc : list (list nat) * gset nat) (i : nat)
  : list (list nat) * gset nat :=
  let '(similar_groups, processed) := acc in
  if bool_decide (i ∈ processed) then acc
  else
    let js := similar_after sim thr n i in
    let processed := list_to_set js ∪ processed in
    match js with
    | [] => (similar_groups, processed)
    | _ :: _ => (similar_groups ++ [i :: js], {[i]} ∪ processed)
    end.

(** [find_similar_chunks] *)
Definition find_similar_chunks (chunks : list string) (thr : Q)
  : list (list nat) :=
  let n := length chunks in
  if (n <? 2)%nat then []
  else
    match tfidf_cosine chunks with
    | None => []
    | Some sim => fst (foldl (group_step sim thr n) ([], ∅) (seq 0 n))
    end.

(** The set [to_remove]: every index but the first of every group. *)
Definition to_remove (similar_groups : list (list nat)) : gset nat :=
  foldl (fun acc group => list_to_set (tail group) ∪ acc) ∅
    similar_groups.

(** The list comprehension
    [[chunk for i, chunk in enumerate(chunks) if i not in to_remove]]. *)
Definition keep_unmarked {A} (marked : gset nat) (chunks : list A)
  : list A :=
  map snd
    (List.filter (fun p => negb (bool_decide (fst p ∈ marked)))
       (imap pair chunks)).

(** [deduplicate_chunks] *)
Definition deduplicate_chunks (chunks : list Chunker.Chunk) (thr : Q)
  : list Chunker.Chunk :=
  match chunks with
  | [] => []
  | _ :: _ =>
      let texts := map Chunker.c_text chunks in
      let similar_groups := find_similar_chunks texts thr in
      keep_unmarked (to_remove similar_groups) chunks
  end.

End WithLibraries.

Arguments Returned {Signature A} a d.
Arguments Raised {Signature A} exn d.
Arguments new {Signature} thr.
Arguments is_duplicate_exact sha256 {Signature} t d.
Arguments is_duplicate_fuzzy {Signature} minhash collide t d.

End Dedup.

(** ** The dense index: [app/storage/vector_store.py] *)

Module VectorStore.

(** A stored component is the bit pattern of a [float32]: FAISS's flat
    index keeps the rows it is given and [reconstruct] hands them back, so
    no arithmetic is done on them here. *)
Definition float32 := Z.
Definition vector := list float32.

(** A value of [id_map]: [{"id": embedding_id, "metadata": {...}}]. *)
Record Item := { id : string; item_metadata : gmap string Z }.

(** [self.index] (the rows of the [IndexFlatIP], a row's slot being its
    position) and [self.id_map]. *)
Record t := { index : list vector; id_map : gmap nat Item }.

Definition ntotal (vs : t) : nat := length (index vs).

(** [faiss.IndexFlatIP(self.dimension)] with [self.id_map = {}] *)
Definition fresh : t := {| index := []; id_map := ∅ |}.

(** *** The two companion files *)

(** A file of the index directory: not there, there with content that
    does not deserialize, or there with a serialized value. *)
Inductive File (A : Type) :=
| Absent
| Unreadable
| Stored (a : A).
Arguments Absent {A}.
Arguments Unreadable {A}.
Arguments Stored {A} a.

(** [faiss.index] and [id_map.pkl] *)
Record Disk := {
  index_file : File (list vector);
  id_map_file : File (gmap nat Item)
}.

(** [path.exists()] *)
Definition file_exists {A} (f : File A) : bool :=
  match f with
  | Absent => false
  | _ => true
  end.

(** [faiss.read_index] and [pickle.load]: [None] when they raise. *)
Definition read {A} (f : File A) : option A :=
  match f with
  | Stored a => Some a
  | _ => None
  end.

(** [load]: the [try] block reads the two files in turn, the [except]
    branch installs an empty index. *)
Definition load (d : Disk) : t :=
  match
    idx ← read (index_file d);
    m ← read (id_map_file d);
    Some {| index := idx; id_map := m |}
  with
  | Some vs => vs
  | None => fresh
  end.

(** [initialize] *)
Definition initialize (d : Disk) : t :=
  if file_exists (index_file d) && file_exists (id_map_file d)
  then load d
  else fresh.

(** The writes of [save], in program order, each taken as one step:
    [faiss.write_index] on the live index file, [open(id_map_path, "wb")]
    which empties the live id-map file, and [pickle.dump] into it. *)
Definition write_index (vs : t) (d : Disk) : Disk :=
  {| index_file := Stored (index vs); id_map_file := id_map_file d |}.

Definition open_wb (d : Disk) : Disk :=
  {| index_file := index_file d; id_map_file := Unreadable |}.

Definition pickle_dump (vs : t) (d : Disk) : Disk :=
  {| index_file := index_file d; id_map_file := Stored (id_map vs) |}.

Definition save_steps (vs : t) : list (Disk -> Disk) :=
  [write_index vs; open_wb; pickle_dump vs].

Definition run_steps (steps : list (Disk -> Disk)) (d : Disk) : Disk :=
  foldl (fun d step => step d) d steps.

(** [save] when every write succeeds. *)
Definition save (vs : t) (d : Disk) : Disk := run_steps (save_steps vs) d.

(** [save] stopped after its first [n] writes. *)
Definition interrupted_save (n : nat) (vs : t) (d : Disk) : Disk :=
  run_steps (take n (save_steps vs)) d.

(** *** Mutations *)

(** A method that can raise hands back the store as the exception
    leaves it. *)
Inductive Outcome :=
| Returned (vs : t)
| Raised (exn : string) (vs : t).

Definition state_after (o : Outcome) : t :=
  match o with
  | Returned vs => vs
  | Raised _ vs => vs
  end.

(** [metadata[i] if metadata else {}]: [None] is the [IndexError]. *)
Definition metadata_at (metadata : option (list (gmap string Z)))
    (i : nat) : option (gmap string Z) :=
  match metadata with
  | None => Some ∅
  | Some [] => Some ∅
  | Some l => l !! i
  end.

(** [for i, embedding_id in enumerate(embedding_ids)] *)
Fixpoint update_id_map (start_idx i : nat) (embedding_ids : list string)
    (metadata : option (list (gmap string Z))) (vs : t) : Outcome :=
  match embedding_ids with
  | [] => Returned vs
  | embedding_id :: rest =>
      match metadata_at metadata i with
      | None => Raised "IndexError" vs
      | Some md =>
          update_id_map start_idx (S i) rest metadata
            {| index := index vs;
               id_map :=
                 <[(start_idx + i)%nat :=
                     {| id := embedding_id; item_metadata := md |}]>
                   (id_map vs) |}
      end
  end.

Section WithEmbedder.

(** The row stored for a text: the embedding model's vector, cast to
    [float32] and L2-normalized.  [embed_batch] gives one per text. *)
Variable embed : string -> vector.

(** [add_embeddings] *)
Definition add_embeddings (texts embedding_ids : list string)
    (metadata : option (list (gmap string Z))) (vs : t) : Outcome :=
  match texts with
  | [] => Returned vs
  | _ :: _ =>
      let embeddings := map embed texts in
      let start_idx := ntotal vs in
      update_id_map start_idx 0 embedding_ids metadata
        {| index := index vs ++ embeddings; id_map := id_map vs |}
  end.

End WithEmbedder.

(** [indices_to_remove]: the slots whose item carries one of the ids.  The
    list is only tested for emptiness and membership, so the order in
    which the dictionary is walked does not matter. *)
Definition indices_to_remove (embedding_ids : list string) (vs : t)
  : list nat :=
  map fst
    (List.filter (fun p => bool_decide (id (snd p) ∈ embedding_ids))
       (map_to_list (id_map vs))).

(** One pass of [for old_idx in range(self.index.ntotal)]; the state is
    the store under construction and [new_idx]. *)
Definition rebuild_step (vs : t) (removed : list nat) (acc : t * nat)
    (old_idx : nat) : t * nat :=
  let '(new, new_idx) := acc in
  if bool_decide (old_idx ∈ removed) then acc
  else
    match index vs !! old_idx with
    | Some v =>
        ({| index := index new ++ [v];
            id_map :=
              match id_map vs !! old_idx with
              | Some item => <[new_idx := item]> (id_map new)
              | None => id_map new
              end |},
         S new_idx)
    | None => acc
    end.

(** [remove_embeddings] *)
Definition remove_embeddings (embedding_ids : list string) (vs : t) : t :=
  let removed := indices_to_remove embedding_ids vs in
  match removed with
  | [] => vs
  | _ :: _ =>
      fst (foldl (rebuild_step vs removed) (fresh, 0%nat)
             (seq 0 (ntotal vs)))
  end.

(** [clear] *)
Definition clear (vs : t) : t := fresh.

(** *** Search *)

(** What a method that leaves the store as it is hands back: its value, or
    the exception that leaves it. *)
Inductive Answer (A : Type) :=
| Answered (a : A)
| Threw (exn : string).
Arguments Answered {A} a.
Arguments Threw {A} exn.

Section WithIndexSearch.

(** The row a query is searched with: its embedding, cast to [float32] and
    L2-normalized. *)
Variable embed_query : string -> vector.

(** [self.index.search(query_embedding, k)] for [k > 0]: FAISS's answer for
    the rows of the index, as [zip(indices[0], distances[0])].  A distance
    is a [float32], held here by the binary64 value equal to it, which is
    what [float(distance)] makes of it. *)
Variable index_search : list vector -> vector -> Z -> list (Z * float).

(** The body of [for idx, distance in zip(indices[0], distances[0])]: what
    a pair adds to [results], if anything. *)
Definition search_hit (threshold : float) (vs : t) (hit : Z * float)
  : option (string * float * gmap string Z) :=
  if (0 <=? fst hit) && (threshold <=? snd hit)%float then
    match id_map vs !! Z.to_nat (fst hit) with
    | Some item => Some (id item, snd hit, item_metadata item)
    | None => None
    end
  else None.

(** [search].  FAISS's [search] starts with [assert k > 0]. *)
Definition search (query : string) (top_k : Z) (threshold : float) (vs : t)
  : Answer (list (string * float * gmap string Z)) :=
  if (ntotal vs =? 0)%nat then Answered []
  else
    let k := Z.min top_k (Z.of_nat (ntotal vs)) in
    if k <=? 0 then Threw "AssertionError"
    else
      Answered
        (omap (search_hit threshold vs)
           (index_search (index vs) (embed_query query) k)).

End WithIndexSearch.

End VectorStore.

(** ** Score fusion: [HybridRetriever.search] in [app/core/retrieval.py] *)

Module Retrieval.

(** [combined_scores]: a [dict] from embedding id to score, in insertion
    order (the order [sorted] starts from).  A score is a Python [float]. *)
Definition Scores := list (string * float).

Fixpoint dict_get (k : string) (d : Scores) : option float :=
  match d with
  | [] => None
  | (k', v) :: r => if String.eqb k k' then Some v else dict_get k r
  end.

(** [d[k] = v]: an existing key keeps its place. *)
Fixpoint dict_set (k : string) (v : float) (d : Scores) : Scores :=
  match d with
  | [] => [(k, v)]
  | (k', v') :: r =>
      if String.eqb k k' then (k, v) :: r else (k', v') :: dict_set k v r
  end.

(** A result of either source: [(embedding_id, score, metadata)]. *)
Definition Hit : Type := string * float * gmap string Z.

Definition hit_id (h : Hit) : string := fst (fst h).
Definition hit_score (h : Hit) : float := snd (fst h).

(** [min(score, 1.0)]: the built-in keeps its first argument unless the
    second one is less than it. *)
Definition min_one (score : float) : float :=
  if (1 <? score)%float then 1%float else score.

Section Fusion.

Variables vector_weight bm25_weight : float.

(** [for embedding_id, score, metadata in vector_results] *)
Definition add_vector_results (vector_results : list Hit) (d : Scores)
  : Scores :=
  foldl
    (fun d h => dict_set (hit_id h) (vector_weight * hit_score h)%float d)
    d vector_results.

(** [for embedding_id, score, _ in bm25_results] *)
Definition add_bm25_results (bm25_results : list Hit) (d : Scores)
  : Scores :=
  foldl
    (fun d h =>
       match dict_get (hit_id h) d with
       | Some old =>
           dict_set (hit_id h)
             (old + bm25_weight * min_one (hit_score h))%float d
       | None =>
           dict_set (hit_id h) (bm25_weight * min_one (hit_score h))%float d
       end)
    d bm25_results.

Definition combined_scores (vector_results bm25_results : list Hit)
  : Scores :=
  add_bm25_results bm25_results (add_vector_results vector_results []).

(** [sorted(items, key=lambda x: x[1], reverse=True)]: the sort compares
    keys with [<] only and is stable, also when reversed, so items of equal
    score keep their order.  [insert_desc x l] puts [x], which came before
    every item of [l], behind the items at the head of [l] that beat it.
    This is the list every stable sort gives when no key is a NaN. *)
Fixpoint insert_desc (x : string * float) (l : Scores) : Scores :=
  match l with
  | [] => [x]
  | y :: r =>
      if (snd x <? snd y)%float then y :: insert_desc x r
      else x :: y :: r
  end.

Definition sorted_desc (d : Scores) : Scores := foldr insert_desc [] d.

(** [sorted_ids[:top_k*2]], the candidates handed on to the lookup of
    chunks and documents. *)
Definition candidates (top_k : Z) (vector_results bm25_results : list Hit)
  : Scores :=
  Py.list_upto (top_k * 2)
    (sorted_desc (combined_scores vector_results bm25_results)).

End Fusion.

End Retrieval.

(** ** Preprocessing: [app/ingest/preprocessor.py] *)

Module Preprocessor.

(** [text.split(sep)] for a one-character separator; [cur] is the piece
    read so far, reversed. *)
Fixpoint split_on (sep : ascii) (cur : list ascii) (l : list ascii)
  : list (list ascii) :=
  match l with
  | [] => [rev cur]
  | c :: r =>
      if Ascii.eqb c sep then rev cur :: split_on sep [] r
      else split_on sep (c :: cur) r
  end.

(** [sep.join(parts)] for a one-character separator *)
Fixpoint join_with (sep : ascii) (parts : list (list ascii)) : list ascii :=
  match parts with
  | [] => []
  | [p] => p
  | p :: rest => p ++ sep :: join_with sep rest
  end.

Definition newline : ascii := ascii_of_nat 10.
Definition tab : ascii := ascii_of_nat 9.

(** [normalize_whitespace] *)
Definition normalize_whitespace (l : list ascii) : list ascii :=
  let l := Chunker.collapse_spaces false l in
  let lines := map Py.strip_chars (split_on newline [] l) in
  join_with newline lines.

(** [str.isprintable] on one character below 256: not a control
    character, not NBSP, not the soft hyphen. *)
Definition isprintable (c : ascii) : bool :=
  let n := Py.code c in
  ((32 <=? n) && (n <=? 126)) || ((161 <=? n) && (n <=? 172))
  || ((174 <=? n) && (n <=? 255)).

(** [remove_control_characters] *)
Definition remove_control_characters (l : list ascii) : list ascii :=
  List.filter
    (fun c => isprintable c || Ascii.eqb c newline || Ascii.eqb c tab) l.

(** [fix_encoding].  Of the keys of its table, the double quote is
    replaced by itself, the dashes, the ellipsis and the zero-width space
    lie above code point 255, and one key spans a line break, which no
    text holds once its white space is normalized: the replacement of
    NBSP by a space is what is left. *)
Definition fix_encoding (l : list ascii) : list ascii :=
  map (fun c => if Py.code c =? 160 then " "%char else c) l.

(** [process] *)
Definition process (t : string) : string :=
  if String.eqb t Py.empty then Py.empty
  else
    Py.str
      (Py.strip_chars
         (fix_encoding
            (remove_control_characters
               (normalize_whitespace (Py.chars t))))).

End Preprocessor.

(** ** The metadata store: [app/storage/document_store.py] *)

Module DocumentStore.

(** A row of [documents]; the time stamps are left out. *)
Record Document := {
  doc_id : nat;
  file_path : string;
  filename : string;
  file_size : Z;
  mime_type : string;
  checksum : string;
  language : option string;
  title : string
}.

(** A row of [chunks]. *)
Record ChunkRow := {
  document_id : nat;
  row_index : nat;
  row_text : string;
  row_start : Z;
  row_end : Z;
  row_page : option Z;
  row_metadata : gmap string Z;
  row_embedding_id : option string
}.

(** The two tables. *)
Record t := {
  documents : list Document;
  chunk_rows : list ChunkRow
}.

Definition empty : t := {| documents := []; chunk_rows := [] |}.

(** The primary key the database gives a new row of [documents]: the
    column is an [INTEGER PRIMARY KEY] without [AUTOINCREMENT]
    ([models.py], line 22), for which SQLite takes one more than the
    largest key in the table, and 1 in an empty table.  The key of a
    deleted newest row is given again. *)
Definition new_id (ds : t) : nat :=
  S (foldr Nat.max 0%nat (map doc_id (documents ds))).

Section WithHash.

(** [hashlib.sha256(content.encode()).hexdigest()] *)
Variable sha256 : string -> string.

(** [file_path.name] *)
Variable path_name : string -> string.

Definition compute_checksum (content : string) : string := sha256 content.

(** [get_document]: the row with this path ([file_path] is unique). *)
Definition get_document (path : string) (ds : t) : option Document :=
  List.find (fun d => String.eqb (file_path d) path) (documents ds).

(** [title or file_path.name] *)
Definition title_or_name (title : option string) (path : string)
  : string :=
  match title with
  | Some s => if String.eqb s Py.empty then path_name path else s
  | None => path_name path
  end.

(** [add_document]: the document it returns and the store it leaves. *)
Definition add_document (path content mime : string)
    (lang : option string) (ttl : option string) (ds : t)
  : Document * t :=
  let sum := compute_checksum content in
  match get_document path ds with
  | Some existing_doc =>
      if negb (String.eqb (checksum existing_doc) sum) then
        let updated :=
          {| doc_id := doc_id existing_doc;
             file_path := file_path existing_doc;
             filename := filename existing_doc;
             file_size := Py.len content;
             mime_type := mime;
             checksum := sum;
             language := lang;
             title := title_or_name ttl path |} in
        (updated,
         {| documents :=
              map (fun d =>
                     if (doc_id d =? doc_id existing_doc)%nat
                     then updated else d)
                (documents ds);
            chunk_rows :=
              List.filter
                (fun r =>
                   negb (document_id r =? doc_id existing_doc)%nat)
                (chunk_rows ds) |})
      else (existing_doc, ds)
  | None =>
      let doc :=
        {| doc_id := new_id ds;
           file_path := path;
           filename := path_name path;
           file_size := Py.len content;
           mime_type := mime;
           checksum := sum;
           language := lang;
           title := title_or_name ttl path |} in
      (doc,
       {| documents := documents ds ++ [doc];
          chunk_rows := chunk_rows ds |})
  end.

End WithHash.

(** [add_chunks] *)
Definition add_chunks (document_id : nat) (chunks : list Chunker.Chunk)
    (ds : t) : t :=
  {| documents := documents ds;
     chunk_rows :=
       chunk_rows ds
         ++ imap (fun i c =>
                    {| document_id := document_id;
                       row_index := i;
                       row_text := Chunker.c_text c;
                       row_start := Chunker.start_char c;
                       row_end := Chunker.end_char c;
                       row_page := Chunker.page_number c;
                       row_metadata := Chunker.metadata c;
                       row_embedding_id := Chunker.embedding_id c |})
              chunks |}.

(** [get_chunks], unordered: the rows of one document. *)
Definition get_chunks (document_id' : nat) (ds : t) : list ChunkRow :=
  List.filter (fun r => (document_id r =? document_id')%nat) (chunk_rows ds).

(** [get_document_by_id] *)
Definition get_document_by_id (document_id' : nat) (ds : t)
  : option Document :=
  List.find (fun d => (doc_id d =? document_id')%nat) (documents ds).

(** [get_chunk_by_embedding_id]: the first row with this embedding id. *)
Definition get_chunk_by_embedding_id (eid : string) (ds : t)
  : option ChunkRow :=
  List.find (fun r => bool_decide (row_embedding_id r = Some eid))
    (chunk_rows ds).

(** [delete_document]: [session.delete(doc)] removes the row by its
    primary key and, through the cascade of the [chunks] relationship, the
    rows of its chunks. *)
Definition delete_document (path : string) (ds : t) : bool * t :=
  match get_document path ds with
  | Some doc =>
      (true,
       {| documents :=
            List.filter (fun d => negb (doc_id d =? doc_id doc)%nat)
              (documents ds);
          chunk_rows :=
            List.filter (fun r => negb (document_id r =? doc_id doc)%nat)
              (chunk_rows ds) |})
  | None => (false, ds)
  end.

End DocumentStore.

(** ** The ingestion pipeline: [app/ingest/pipeline.py] *)

Module Pipeline.

(** What [parser.parse] returns: the keys [ingest_file] reads. *)
Record Content := {
  text : string;
  content_mime_type : option string;
  content_title : option string
}.

(** What the file system and the parser registry answer for a path. *)
Inductive FileStatus :=
| NotFound
| NoParser
| ParseRaises (message : string)
| Parsed (content : option Content).

(** The dictionaries [ingest_file] returns, by their ["status"]. *)
Inductive Result :=
| Error (message : string)
| Skipped (message : string)
| Unchanged
| Success (document_id : nat) (chunks : nat) (language : option string).

(** What the pipeline owns: the metadata store, the dense index and the
    index directory. *)
Record State := {
  docs : DocumentStore.t;
  vectors : VectorStore.t;
  disk : VectorStore.Disk
}.

Section WithCollaborators.

Variable read_file : string -> FileStatus.
Variable sha256 : string -> string.
Variable path_name : string -> string.
(** [LanguageDetector.detect] *)
Variable detect : string -> option string.
Variable embed : string -> VectorStore.vector.
Variable tfidf_cosine : list string -> option (nat -> nat -> Q).
(** [settings.chunk_size] and [settings.chunk_overlap] *)
Variables settings_chunk_size settings_chunk_overlap : Z.

(** [ChunkConfig(chunk_size=..., chunk_overlap=...)]: the other fields
    keep their defaults. *)
Definition config : Chunker.ChunkConfig :=
  {| Chunker.chunk_size := settings_chunk_size;
     Chunker.chunk_overlap := settings_chunk_overlap;
     Chunker.min_chunk_size := 100;
     Chunker.respect_sentence_boundary := true;
     Chunker.respect_word_boundary := true |}.

(** [self.chunker.chunk_text]: the configuration is in sentence mode,
    where the chunker needs no fuel and always answers. *)
Definition chunker_chunk_text (t : string) (md : gmap string Z)
  : list Chunker.Chunk :=
  default [] (Chunker.chunk_text 0 config t (Some md)).

(** [f"doc_{document.id}_chunk_{i}"] *)
Definition embedding_id_of (document_id i : nat) : string :=
  ("doc_" +:+ pretty document_id +:+ "_chunk_" +:+ pretty i)%string.

Definition with_embedding_id (c : Chunker.Chunk) (eid : string)
  : Chunker.Chunk :=
  {| Chunker.c_text := Chunker.c_text c;
     Chunker.start_char := Chunker.start_char c;
     Chunker.end_char := Chunker.end_char c;
     Chunker.chunk_index := Chunker.chunk_index c;
     Chunker.metadata := Chunker.metadata c;
     Chunker.page_number := Chunker.page_number c;
     Chunker.embedding_id := Some eid |}.

(** The part of [ingest_file] after the duplicate check. *)
Definition index_content (path : string) (c : Content) (st : State)
  : Result * State :=
  let processed_text := Preprocessor.process (text c) in
  let lang := detect processed_text in
  let '(document, docs1) :=
    DocumentStore.add_document sha256 path_name path processed_text
      (default "text/plain"%string (content_mime_type c)) lang
      (content_title c) (docs st) in
  let doc_id := DocumentStore.doc_id document in
  let doc_md : gmap string Z :=
    {[ "document_id"%string := Z.of_nat doc_id ]} in
  let chunks := chunker_chunk_text processed_text doc_md in
  let chunks := Dedup.deduplicate_chunks tfidf_cosine chunks 0.9 in
  match chunks with
  | [] =>
      (Error "No chunks created",
       {| docs := docs1; vectors := vectors st; disk := disk st |})
  | _ :: _ =>
      let chunk_texts := map Chunker.c_text chunks in
      let embedding_ids :=
        map (embedding_id_of doc_id) (seq 0 (length chunks)) in
      match
        VectorStore.add_embeddings embed chunk_texts embedding_ids
          (Some (map (fun _ => doc_md) chunks)) (vectors st)
      with
      | VectorStore.Raised exn vs =>
          (Error exn, {| docs := docs1; vectors := vs; disk := disk st |})
      | VectorStore.Returned vs =>
          let chunks := zip_with with_embedding_id chunks embedding_ids in
          let docs2 := DocumentStore.add_chunks doc_id chunks docs1 in
          (Success doc_id (length chunks) lang,
           {| docs := docs2; vectors := vs;
              disk := VectorStore.save vs (disk st) |})
      end
  end.

(** [ingest_file] *)
Definition ingest_file (path : string) (force : bool) (st : State)
  : Result * State :=
  match read_file path with
  | NotFound => (Error "File not found", st)
  | NoParser => (Skipped "Unsupported file type", st)
  | ParseRaises message => (Error message, st)
  | Parsed None => (Skipped "No text content", st)
  | Parsed (Some c) =>
      if String.eqb (text c) Py.empty then (Skipped "No text content", st)
      else
        let unchanged :=
          negb force
          && match DocumentStore.get_document path (docs st) with
             | Some doc =>
                 String.eqb (DocumentStore.checksum doc)
                   (DocumentStore.compute_checksum sha256 (text c))
             | None => false
             end in
        if unchanged then (Unchanged, st)
        else index_content path c st
  end.

(** The number of passages stored for a document. *)
Definition passage_count (document_id : nat) (st : State) : nat :=
  length (DocumentStore.get_chunks document_id (docs st)).

(** The ["status"] of a result. *)
Definition status_of (r : Result) : string :=
  match r with
  | Error _ => "error"
  | Skipped _ => "skipped"
  | Unchanged => "unchanged"
  | Success _ _ _ => "success"
  end.

(** The dictionary [ingest_directory] returns. *)
Record DirectoryResults := {
  total : nat;
  success : nat;
  skipped : nat;
  failed : nat;
  files : list (string * string)
}.

(** One pass of [for file_path in files]; an entry of the listing is a
    path with what [is_file()] answers for it. *)
Definition directory_step (acc : DirectoryResults * State)
    (entry : string * bool) : DirectoryResults * State :=
  let '(results, st) := acc in
  if snd entry then
    let '(result, st') := ingest_file (fst entry) false st in
    let status := status_of result in
    let listed := files results ++ [(fst entry, status)] in
    (if String.eqb status "success" then
       {| total := total results; success := S (success results);
          skipped := skipped results; failed := failed results;
          files := listed |}
     else if String.eqb status "skipped" || String.eqb status "unchanged"
     then
       {| total := total results; success := success results;
          skipped := S (skipped results); failed := failed results;
          files := listed |}
     else
       {| total := total results; success := success results;
          skipped := skipped results; failed := S (failed results);
          files := listed |},
     st')
  else acc.

(** [ingest_directory], on the listing that [rglob] or [glob] gave. *)
Definition ingest_directory (listing : list (string * bool)) (st : State)
  : DirectoryResults * State :=
  foldl directory_step
    ({| total := length listing; success := 0; skipped := 0; failed := 0;
        files := [] |}, st)
    listing.

(** [[chunk.embedding_id for chunk in chunks if chunk.embedding_id]] *)
Definition embedding_ids_in (rows : list DocumentStore.ChunkRow)
  : list string :=
  omap (fun r =>
          match DocumentStore.row_embedding_id r with
          | Some eid => if String.eqb eid Py.empty then None else Some eid
          | None => None
          end)
    rows.

(** [delete_document] *)
Definition delete_document (path : string) (st : State) : bool * State :=
  match DocumentStore.get_document path (docs st) with
  | None => (false, st)
  | Some doc =>
      let chunks :=
        DocumentStore.get_chunks (DocumentStore.doc_id doc) (docs st) in
      let embedding_ids := embedding_ids_in chunks in
      let '(vs, dk) :=
        match embedding_ids with
        | [] => (vectors st, disk st)
        | _ :: _ =>
            let vs := VectorStore.remove_embeddings embedding_ids (vectors st) in
            (vs, VectorStore.save vs (disk st))
        end in
      (true,
       {| docs := snd (DocumentStore.delete_document path (docs st));
          vectors := vs;
          disk := dk |})
  end.

End WithCollaborators.

End Pipeline.

(** ** The rest of [HybridRetriever]: [search] and [rerank] *)

Module HybridRetriever.

(** A dictionary of [results]: the chunk and the document it was resolved
    to, whose columns fill its keys, and the scores. *)
Record Result := {
  chunk : DocumentStore.ChunkRow;
  document : DocumentStore.Document;
  score : float;
  rerank_score : option float;
  original_score : option float
}.

(** The attributes [search] reads.  [bm25_built] tells that [bm25_index] is
    not [None]; the index is the one [BM25Okapi] builds of [chunk_texts].
    The ids are strings: the pipeline stores every chunk with one. *)
Record Retriever := {
  vector_weight : float;
  bm25_weight : float;
  bm25_built : bool;
  chunk_texts : list string;
  chunk_ids : list string;
  (** [CrossEncoder.predict] on one pair, when a reranker is loaded *)
  reranker : option (string -> string -> float)
}.

(** [list.sort(key=..., reverse=True)]: stable, by decreasing key, as
    [Retrieval.insert_desc]. *)
Fixpoint insert_by {A} (key : A -> float) (x : A) (l : list A) : list A :=
  match l with
  | [] => [x]
  | y :: r =>
      if (key x <? key y)%float then y :: insert_by key x r
      else x :: y :: r
  end.

Definition sort_desc_by {A} (key : A -> float) (l : list A) : list A :=
  foldr (insert_by key) [] l.

Section WithCollaborators.

Variable embed_query : string -> VectorStore.vector.
Variable index_search
  : list VectorStore.vector -> VectorStore.vector -> Z -> list (Z * float).
(** [BM25Okapi(corpus).get_scores(query)], on the lower-cased and split
    texts: one score per text of the corpus. *)
Variable bm25_scores : list string -> string -> list float.
(** [np.argsort]: the indices of the scores, by increasing score. *)
Variable argsort : list float -> list nat.

(** [rerank] *)
Definition rerank (r : Retriever) (query : string) (results : list Result)
    (top_k : Z) : list Result :=
  match reranker r, results with
  | Some predict, _ :: _ =>
      let rescored :=
        map (fun res =>
               let s := predict query (DocumentStore.row_text (chunk res)) in
               {| chunk := chunk res; document := document res;
                  score := s; rerank_score := Some s;
                  original_score := Some (score res) |})
          results in
      Py.list_upto top_k (sort_desc_by score rescored)
  | _, _ => Py.list_upto top_k results
  end.

(** The loop [for idx in top_indices] of the BM25 part: an index within
    [chunk_ids] adds a result, and reading a score that is not there is an
    [IndexError]. *)
Fixpoint bm25_loop (r : Retriever) (scores : list float)
    (top_indices : list nat) (acc : list Retrieval.Hit)
  : VectorStore.Answer (list Retrieval.Hit) :=
  match top_indices with
  | [] => VectorStore.Answered acc
  | idx :: rest =>
      match chunk_ids r !! idx with
      | Some eid =>
          match scores !! idx with
          | Some s =>
              bm25_loop r scores rest (acc ++ [(eid, s, (∅ : gmap string Z))])
          | None => VectorStore.Threw "IndexError"
          end
      | None => bm25_loop r scores rest acc
      end
  end.

(** The BM25 part of [search], with
    [np.argsort(bm25_scores)[-top_k*2:][::-1]]. *)
Definition bm25_results (r : Retriever) (query : string) (top_k : Z)
  : VectorStore.Answer (list Retrieval.Hit) :=
  if bm25_built r && negb (bool_decide (chunk_texts r = [])) then
    let scores := bm25_scores (chunk_texts r) query in
    let top_indices :=
      rev (Py.list_from (- top_k * 2) (argsort scores)) in
    bm25_loop r scores top_indices []
  else VectorStore.Answered [].

(** The lookup of the chunk and the document of a candidate. *)
Definition resolve (ds : DocumentStore.t) (candidate : string * float)
  : option Result :=
  c ← DocumentStore.get_chunk_by_embedding_id (fst candidate) ds;
  d ← DocumentStore.get_document_by_id (DocumentStore.document_id c) ds;
  Some {| chunk := c; document := d; score := snd candidate;
          rerank_score := None; original_score := None |}.

(** [search]: an exception of the vector search or of the BM25 part
    leaves the method. *)
Definition search (r : Retriever) (vs : VectorStore.t)
    (ds : DocumentStore.t) (query : string) (top_k : Z)
    (use_reranker : bool) : VectorStore.Answer (list Result) :=
  match
    VectorStore.search embed_query index_search query (top_k * 2) 0 vs
  with
  | VectorStore.Threw exn => VectorStore.Threw exn
  | VectorStore.Answered vector_results =>
      match bm25_results r query top_k with
      | VectorStore.Threw exn => VectorStore.Threw exn
      | VectorStore.Answered lexical_results =>
          let candidates :=
            Retrieval.candidates (vector_weight r) (bm25_weight r) top_k
              vector_results lexical_results in
          let results := omap (resolve ds) candidates in
          VectorStore.Answered
            (if use_reranker && bool_decide (is_Some (reranker r))
                && negb (bool_decide (results = []))
             then rerank r query results top_k
             else Py.list_upto top_k results)
      end
  end.

End WithCollaborators.

End HybridRetriever.

(** * Properties *)

(** ** The chunker in size mode *)

Module SizeMode.
Import Chunker.

(** The configuration of the repository's size-mode unit test. *)
Definition size_mode_config : ChunkConfig :=
  {| chunk_size := 100; chunk_overlap := 20; min_chunk_size := 100;
     respect_sentence_boundary := false; respect_word_boundary := true |}.

(** ["x" * 20 + " " + "y" * 200] *)
Definition stuck_text : string :=
  (Py.repeat_char "x" 20 +:+ " " +:+ Py.repeat_char "y" 200)%string.

(** A state that the loop body maps to itself is never left. *)
Lemma size_loop_fixed_point cfg t st :
  size_step cfg t st = Again st -> forall fuel, size_loop fuel cfg t st = None.
Proof.
  intros Hstep fuel. induction fuel as [|fuel IH]; [reflexivity|].
  cbn [size_loop]. rewrite Hstep. exact IH.
Qed.

Lemma stuck_text_step :
  size_step size_mode_config stuck_text {| sz_chunks := []; sz_start := 0 |}
  = Again {| sz_chunks := []; sz_start := 0 |}.
Proof. vm_compute. reflexivity. Qed.

Lemma stuck_text_clean : _clean_text stuck_text = stuck_text.
Proof. vm_compute. reflexivity. Qed.

Lemma stuck_text_long_enough :
  String.eqb stuck_text Py.empty
  || (Py.len (Py.strip stuck_text) <? min_chunk_size size_mode_config)
  = false.
Proof. vm_compute. reflexivity. Qed.

(** C7, at a failing input.  With the size-mode configuration of the unit
    test (chunk size 100, overlap 20, minimum 100) and the text
    ["x" * 20 + " " + "y" * 200], the first window is cut back to the space
    at offset 20, its 20 characters are below the minimum so no chunk is
    appended, and [start = end - chunk_overlap] is 0 again: with [chunks]
    empty the guard that should force progress is the constant 0.  The loop
    is in its initial state after every pass, so [chunk_text] does not
    return, whatever number of passes it is given. *)
Theorem chunk_by_size_never_returns :
  forall fuel, chunk_text fuel size_mode_config stuck_text None = None.
Proof.
  intros fuel. unfold chunk_text.
  rewrite stuck_text_long_enough, stuck_text_clean.
  change (respect_sentence_boundary size_mode_config) with false.
  cbv iota. unfold _chunk_by_size.
  rewrite (size_loop_fixed_point _ _ _ stuck_text_step fuel).
  reflexivity.
Qed.

(** In sentence mode [chunk_text] always returns. *)
Lemma chunk_text_sentence_mode_returns fuel cfg t md :
  respect_sentence_boundary cfg = true ->
  is_Some (chunk_text fuel cfg t md).
Proof.
  intros Hmode. unfold chunk_text. rewrite Hmode.
  destruct (_ || _); eauto.
Qed.
End SizeMode.

(** ** The chunker in sentence mode *)

Module SentenceMode.
Import Chunker.

(** The claimed bound: a chunk is no longer than [chunk_size], unless it
    is one sentence that alone is longer. *)
Definition single_long_sentence (cfg : ChunkConfig) (t : string)
    (c : Chunk) : Prop :=
  exists s, s ∈ sentence_split (_clean_text t)
            /\ c_text c = Py.strip s
            /\ chunk_size cfg < Py.len (Py.strip s).

Definition chunk_length_bound (cfg : ChunkConfig) (t : string) : Prop :=
  forall fuel cs c,
    chunk_text fuel cfg t None = Some cs -> c ∈ cs ->
    Py.len (c_text c) <= chunk_size cfg \/ single_long_sentence cfg t c.

(** Three sentences of 300 characters, under the default configuration
    (chunk size 512, overlap 50). *)
Definition sent_a : string := Py.repeat_char "a" 300.
Definition sent_b : string := Py.repeat_char "b" 300.
Definition sent_c : string := (Py.repeat_char "c" 300 +:+ ".")%string.

Definition three_sentences : string :=
  (sent_a +:+ ". " +:+ sent_b +:+ ". " +:+ sent_c)%string.

Lemma three_sentences_split :
  sentence_split (_clean_text three_sentences) = [sent_a; sent_b; sent_c].
Proof. vm_compute. reflexivity. Qed.

Lemma three_sentences_chunks :
  chunk_text 0 default_config three_sentences None
  = Some (imap (decorate None)
            [span_of [sent_a] 0; span_of [sent_a; sent_b] 0;
             span_of [sent_b; sent_c] 301]).
Proof. vm_compute. reflexivity. Qed.

Lemma three_sentences_lengths :
  Py.len (Py.join_space [sent_a; sent_b]) = 601
  /\ Py.len (Py.strip sent_a) = 300
  /\ Py.len (Py.strip sent_b) = 300
  /\ Py.len (Py.strip sent_c) = 301.
Proof. vm_compute. auto. Qed.

(** C6, counterexample.  Under the default configuration the second chunk
    of [three_sentences] is the first sentence, carried over as overlap,
    followed by the second: 601 characters from two sentences of 300. *)
Lemma overlap_chunk_breaks_bound :
  ~ chunk_length_bound default_config three_sentences.
Proof.
  intros Hbound.
  destruct three_sentences_lengths as (Hab & Ha & Hb & Hc).
  destruct (Hbound 0%nat _ (decorate None 1 (span_of [sent_a; sent_b] 0))
              three_sentences_chunks) as [Hle | (s & Hin & _ & Hlong)].
  - cbn [imap]. apply list_elem_of_further, list_elem_of_here.
  - cbn [decorate c_text span_of text] in Hle.
    rewrite Hab in Hle. cbn in Hle. lia.
  - rewrite three_sentences_split in Hin.
    cbn [chunk_size default_config] in Hlong.
    set_unfold in Hin. destruct Hin as [-> | [-> | [-> | []]]]; lia.
Qed.

(** The joining spaces are not part of the size the loop compares with
    [chunk_size]: without overlap, two sentences of 50 characters make one
    chunk of 101 characters under a chunk size of 100. *)
Definition no_overlap_config : ChunkConfig :=
  {| chunk_size := 100; chunk_overlap := 0; min_chunk_size := 100;
     respect_sentence_boundary := true; respect_word_boundary := true |}.

Definition two_sentences : string :=
  (Py.repeat_char "a" 50 +:+ ". " +:+ Py.repeat_char "b" 50)%string.

Lemma joining_space_not_counted :
  option_map (map (fun c => Py.len (c_text c)))
    (chunk_text 0 no_overlap_config two_sentences None)
  = Some [101].
Proof. vm_compute. reflexivity. Qed.

(** *** The groups of sentences behind the chunks *)

Section Groups.
Variable cfg : ChunkConfig.

(** The sentences a chunk starts from: those the overlap loop keeps of
    the chunk before it, none for the first chunk or without overlap. *)
Definition carried (prev : option (list string)) : list string :=
  match prev with
  | Some g =>
      if 0 <? chunk_overlap cfg
      then overlap_loop (chunk_overlap cfg) (rev g) 0 []
      else []
  | None => []
  end.

Definition group_ok (prev : option (list string)) (g : list string)
  : Prop :=
  g <> [] /\
  (sum_len g <= chunk_size cfg \/ exists s, g = carried prev ++ [s]).

Fixpoint groups_ok (prev : option (list string))
    (gs : list (list string)) : Prop :=
  match gs with
  | [] => True
  | g :: rest => group_ok prev g /\ groups_ok (Some g) rest
  end.

Definition last_or (prev : option (list string))
    (gs : list (list string)) : option (list string) :=
  match last gs with
  | Some g => Some g
  | None => prev
  end.

Lemma last_or_cons prev g gs : last_or prev (g :: gs) = last_or (Some g) gs.
Proof.
  unfold last_or. destruct gs as [|g' gs]; [reflexivity|].
  rewrite last_cons. destruct (last (g' :: gs)); reflexivity.
Qed.

Lemma groups_ok_snoc prev gs g :
  groups_ok prev gs -> group_ok (last_or prev gs) g ->
  groups_ok prev (gs ++ [g]).
Proof.
  revert prev. induction gs as [|g0 gs IH]; intros prev Hgs Hg.
  - cbn in *. auto.
  - destruct Hgs as [Hg0 Hrest]. cbn [app groups_ok]. split; [exact Hg0|].
    apply IH; [exact Hrest|]. by rewrite <- last_or_cons with (prev := prev).
Qed.

Lemma last_or_snoc prev gs g : last_or prev (gs ++ [g]) = Some g.
Proof. unfold last_or. by rewrite last_snoc. Qed.

Lemma sum_len_app l1 l2 : sum_len (l1 ++ l2) = sum_len l1 + sum_len l2.
Proof.
  unfold sum_len. induction l1 as [|s l1 IH]; cbn; [lia|].
  fold (sum_len (l1 ++ l2)) in *. cbn in IH. rewrite IH. lia.
Qed.

(** What holds of the loop variables between two sentences: the chunks
    emitted so far are the joins of groups that are in order, and the
    chunk being filled is empty (before the first sentence) or in order
    after them. *)
Lemma overlap_loop_keeps (P : string -> Prop) overlap l n acc :
  Forall P l -> Forall P acc -> Forall P (overlap_loop overlap l n acc).
Proof.
  revert n acc. induction l as [|s l IH]; intros n acc Hl Hacc; [done|].
  apply Forall_cons in Hl as [Hs Hl]. cbn.
  destruct (_ <=? _); [by constructor|]. apply IH; [done|by constructor].
Qed.

(** The sentences a chunk may be made of. *)
Variable allowed : string -> Prop.

Definition loop_inv (st : SentState) : Prop :=
  exists gs,
    map text (chunks st) = map Py.join_space gs
    /\ groups_ok None gs
    /\ Forall (Forall allowed) gs
    /\ Forall allowed (current_chunk st)
    /\ current_size st = sum_len (current_chunk st)
    /\ ((current_chunk st = [] /\ gs = [])
        \/ group_ok (last_or None gs) (current_chunk st)).

Lemma sentence_step_inv st sentence :
  allowed (Py.strip sentence) ->
  loop_inv st -> loop_inv (sentence_step cfg st sentence).
Proof.
  intros Hs (gs & Htext & Hgs & Hall & Hallc & Hsize & Hcur).
  unfold sentence_step.
  destruct (String.eqb (Py.strip sentence) Py.empty) eqn:Hempty.
  { exists gs. auto 6. }
  set (s := Py.strip sentence).
  destruct (chunk_size cfg <? current_size st + Py.len s) eqn:Hfull;
    [destruct (bool_decide (current_chunk st = [])) eqn:Hnil|]; cbn [andb negb].
  - (* the chunk is still empty *)
    apply bool_decide_eq_true in Hnil.
    destruct Hcur as [[_ ->] | [Hne _]]; [|done].
    exists []. cbn. rewrite Hnil, Hsize, Hnil. cbn.
    split; [done|]. split; [done|]. split; [done|].
    split; [by repeat constructor|]. split; [lia|].
    right. split; [done|]. right. by exists s.
  - (* the chunk is emitted *)
    apply bool_decide_eq_false in Hnil.
    destruct Hcur as [[Hcur _] | Hcur]; [done|].
    exists (gs ++ [current_chunk st]).
    assert (Hgs' : groups_ok None (gs ++ [current_chunk st]))
      by (by apply groups_ok_snoc).
    assert (Hall' : Forall (Forall allowed) (gs ++ [current_chunk st]))
      by (apply Forall_app; split; [done|by constructor]).
    destruct (0 <? chunk_overlap cfg) eqn:Hov; cbn.
    + rewrite !map_app, Htext. cbn. rewrite sum_len_app. cbn.
      split; [done|]. split; [done|]. split; [done|].
      split.
      { apply Forall_app. split; [|by repeat constructor].
        apply overlap_loop_keeps; [by apply Forall_rev|done]. }
      split; [lia|]. right. split.
      { by destruct (overlap_loop _ _ _ _). }
      right. exists s. rewrite last_or_snoc. cbn. by rewrite Hov.
    + rewrite !map_app, Htext. cbn.
      split; [done|]. split; [done|]. split; [done|].
      split; [by repeat constructor|].
      split; [lia|]. right. split; [done|].
      right. exists s. rewrite last_or_snoc. cbn. by rewrite Hov.
  - (* the sentence fits, or the chunk is empty *)
    exists gs. cbn [chunks current_chunk current_size start_pos].
    rewrite sum_len_app. cbn [sum_len foldr].
    split; [done|]. split; [done|]. split; [done|].
    split; [apply Forall_app; split; [done|by repeat constructor]|].
    split; [lia|]. right.
    split; [by destruct (current_chunk st)|].
    destruct Hcur as [[Hnil ->] | [Hne Hok]].
    + right. exists s. by rewrite Hnil.
    + left. rewrite sum_len_app. cbn [sum_len foldr].
      apply Z.ltb_ge in Hfull. lia.
Qed.

Lemma sentence_loop_inv sentences :
  Forall (fun s => allowed (Py.strip s)) sentences ->
  loop_inv (sentence_loop cfg sentences).
Proof.
  unfold sentence_loop.
  assert (Hinit : loop_inv {| chunks := []; current_chunk := [];
                              current_size := 0; start_pos := 0 |}).
  { exists []. cbn. repeat split; auto. }
  revert Hinit. generalize ({| chunks := []; current_chunk := [];
                              current_size := 0; start_pos := 0 |}).
  induction sentences as [|s sentences IH]; intros st Hst Hall;
    [exact Hst|].
  apply Forall_cons in Hall as [Hs Hall].
  cbn [foldl]. apply IH; [|done]. by apply sentence_step_inv.
Qed.

Lemma finish_sentences_groups st :
  loop_inv st ->
  exists gs,
    map text (finish_sentences st) = map Py.join_space gs
    /\ groups_ok None gs /\ Forall (Forall allowed) gs.
Proof.
  intros (gs & Htext & Hgs & Hall & Hallc & _ & Hcur).
  unfold finish_sentences. case_bool_decide as Hnil.
  - exists gs. auto.
  - destruct Hcur as [[Hcur _] | Hcur]; [done|].
    exists (gs ++ [current_chunk st]).
    rewrite !map_app, Htext. cbn. split; [done|].
    split; [by apply groups_ok_snoc|].
    apply Forall_app. split; [done|by constructor].
Qed.

Lemma decorate_texts md spans k :
  map c_text (imap (fun i => decorate md (k + i)%nat) spans) = map text spans.
Proof.
  revert k. induction spans as [|sp spans IH]; intros k; [reflexivity|].
  cbn. f_equal.
  rewrite <- (IH (S k)). f_equal. apply imap_ext. intros i x _. cbn.
  f_equal. lia.
Qed.

(** In sentence mode every chunk is the join of a group of sentences
    whose sizes add up to [chunk_size] at most, unless the group is
    the sentences carried over from the chunk before it followed by one
    new sentence. *)
End Groups.

(** The sentences of a text as the chunker sees them. *)
Definition sentences_of (t : string) : list string :=
  map Py.strip (sentence_split (_clean_text t)).

(** C6, as amended.  In sentence mode [chunk_text] returns, and every chunk
    is the single-space join of a non-empty group of sentences of the text;
    the sizes of the sentences of a group add up to [chunk_size] at most,
    unless the group is the sentences carried over from the chunk before it
    (none for the first chunk, or when [chunk_overlap] is not positive)
    followed by exactly one new sentence. *)
Theorem sentence_chunks_in_order cfg fuel t md :
  respect_sentence_boundary cfg = true ->
  exists cs gs,
    chunk_text fuel cfg t md = Some cs
    /\ map c_text cs = map Py.join_space gs
    /\ Forall (Forall (fun s => s ∈ sentences_of t)) gs
    /\ groups_ok cfg None gs.
Proof.
  intros Hmode. unfold chunk_text. rewrite Hmode.
  destruct (_ || _).
  - exists [], []. cbn. auto.
  - destruct (finish_sentences_groups cfg (fun s => s ∈ sentences_of t)
                (sentence_loop cfg (sentence_split (_clean_text t))))
      as (gs & Htext & Hgs & Hall).
    { apply sentence_loop_inv. apply Forall_forall. intros s Hs.
      unfold sentences_of. apply list_elem_of_fmap. exists s.
      by split. }
    eexists _, gs. cbn. split; [reflexivity|].
    split; [|by split].
    rewrite <- Htext. apply (decorate_texts md _ 0).
Qed.

Lemma sentence_chunks_in_order_witness :
  respect_sentence_boundary default_config = true
  /\ exists cs gs,
       chunk_text 0 default_config three_sentences None = Some cs
       /\ map c_text cs = map Py.join_space gs
       /\ Forall (Forall (fun s => s ∈ sentences_of three_sentences)) gs
       /\ groups_ok default_config None gs.
Proof.
  split; [reflexivity|].
  apply (sentence_chunks_in_order default_config 0 three_sentences None).
  reflexivity.
Defined.

End SentenceMode.

(** ** The dense index *)

Module VectorStoreSpec.
Import VectorStore.
Local Open Scope nat_scope.

(** *** Example stores and directories *)

(** The bit pattern of the [float32] 1.0. *)
Definition one : float32 := 1065353216%Z.

Definition item_of (eid : string) : Item :=
  {| id := eid; item_metadata := ∅ |}.

Definition one_vector : t :=
  {| index := [[one]]; id_map := <[0 := item_of "d1_c0"]> ∅ |}.

Definition two_vectors : t :=
  {| index := [[one]; [0%Z]];
     id_map := <[0 := item_of "d1_c0"]> (<[1 := item_of "d1_c1"]> ∅) |}.

Definition empty_directory : Disk :=
  {| index_file := Absent; id_map_file := Absent |}.

(** An index directory whose id map names a slot the index file does not
    have: one vector, two entries. *)
Definition dangling_disk : Disk :=
  {| index_file := Stored (index one_vector);
     id_map_file := Stored (id_map two_vectors) |}.

Definition zero_embedder (t : string) : vector := [0%Z].

(** *** The slot map *)

(** Every slot of the index has an entry of the id map, and the id map has
    no other key. *)
Definition slot_map_ok (vs : t) : Prop :=
  dom (id_map vs) = set_seq 0 (ntotal vs).

Lemma slot_map_ok_lookup vs :
  slot_map_ok vs <-> forall k, is_Some (id_map vs !! k) <-> k < ntotal vs.
Proof.
  unfold slot_map_ok. split.
  - intros Hdom k. rewrite <- elem_of_dom, Hdom, elem_of_set_seq. lia.
  - intros Hk. apply set_eq. intros k.
    rewrite elem_of_dom, Hk, elem_of_set_seq. lia.
Qed.

(** *** The rebuild of [remove_embeddings] *)

Section Rebuild.
Variable vs : t.
Variable removed : list nat.

Definition kept (l : list nat) : list nat :=
  List.filter (fun k => negb (bool_decide (k ∈ removed))) l.

Lemma kept_cons_removed k l : k ∈ removed -> kept (k :: l) = kept l.
Proof. intros Hk. unfold kept. cbn. by rewrite bool_decide_eq_true_2. Qed.

Lemma kept_cons_kept k l : k ∉ removed -> kept (k :: l) = k :: kept l.
Proof. intros Hk. unfold kept. cbn. by rewrite bool_decide_eq_false_2. Qed.

Lemma rebuild_step_removed acc k :
  k ∈ removed -> rebuild_step vs removed acc k = acc.
Proof.
  intros Hk. destruct acc as [new new_idx]. unfold rebuild_step.
  by rewrite bool_decide_eq_true_2.
Qed.

(** The id map after slot [k] has been copied to slot [new_idx]. *)
Definition copy_item (k new_idx : nat) (m : gmap nat Item)
  : gmap nat Item :=
  match id_map vs !! k with
  | Some item => <[new_idx := item]> m
  | None => m
  end.

Lemma rebuild_step_kept new new_idx k v :
  k ∉ removed -> index vs !! k = Some v ->
  rebuild_step vs removed (new, new_idx) k
  = ({| index := index new ++ [v];
        id_map := copy_item k new_idx (id_map new) |}, S new_idx).
Proof.
  intros Hk Hv. unfold rebuild_step.
  by rewrite bool_decide_eq_false_2, Hv.
Qed.

Lemma copy_item_lookup k new_idx m r :
  m !! new_idx = None ->
  copy_item k new_idx m !! r
  = if decide (r = new_idx) then id_map vs !! k else m !! r.
Proof.
  intros Hfree. unfold copy_item.
  destruct (id_map vs !! k) eqn:Hitem; case_decide as Hr; subst.
  - by rewrite lookup_insert_eq.
  - by rewrite lookup_insert_ne.
  - done.
  - done.
Qed.

Lemma rebuild_foldl l new new_idx :
  Forall (fun k => k < ntotal vs) l ->
  (forall r, new_idx <= r -> id_map new !! r = None) ->
  let res := foldl (rebuild_step vs removed) (new, new_idx) l in
  snd res = new_idx + length (kept l)
  /\ index (fst res) = index new ++ omap (fun k => index vs !! k) (kept l)
  /\ (forall r,
        id_map (fst res) !! r
        = if decide (new_idx <= r)
          then kept l !! (r - new_idx) ≫= (fun k => id_map vs !! k)
          else id_map new !! r).
Proof.
  revert new new_idx.
  induction l as [|k l IH]; intros new new_idx Hl Hnew; cbn zeta.
  - cbn. rewrite app_nil_r. split; [lia|]. split; [done|].
    intros r. case_decide; [|done]. by rewrite Hnew.
  - apply Forall_cons in Hl as [Hk Hl]. cbn [foldl].
    destruct (decide (k ∈ removed)) as [Hrem|Hrem].
    { rewrite rebuild_step_removed, kept_cons_removed by done.
      by apply IH. }
    destruct (lookup_lt_is_Some_2 (index vs) k Hk) as [v Hv].
    rewrite (rebuild_step_kept _ _ _ v), kept_cons_kept by done.
    set (new1 := {| index := index new ++ [v];
                    id_map := copy_item k new_idx (id_map new) |}).
    assert (Hfree : id_map new !! new_idx = None) by (apply Hnew; lia).
    destruct (IH new1 (S new_idx) Hl) as (Hidx & Hindex & Hmap).
    { intros r Hr. subst new1. cbn [id_map].
      rewrite copy_item_lookup, decide_False by (done || lia).
      apply Hnew. lia. }
    split; [cbn [length]; lia|]. split.
    + rewrite Hindex. subst new1. cbn. rewrite Hv. cbn.
      by rewrite <- app_assoc.
    + intros r. rewrite Hmap. subst new1. cbn [id_map].
      rewrite copy_item_lookup by done.
      destruct (decide (S new_idx <= r)) as [Hr|Hr].
      * rewrite decide_True by lia.
        by replace (r - new_idx) with (S (r - S new_idx)) by lia.
      * destruct (decide (new_idx <= r)) as [Hr'|Hr'].
        -- assert (r = new_idx) as -> by lia.
           rewrite Nat.sub_diag, decide_True by done. done.
        -- by rewrite decide_False by lia.
Qed.
End Rebuild.

Lemma elem_of_indices_to_remove ids vs k :
  k ∈ indices_to_remove ids vs
  <-> exists item, id_map vs !! k = Some item /\ id item ∈ ids.
Proof.
  unfold indices_to_remove. rewrite list_elem_of_fmap. split.
  - intros ([k' item] & -> & Hin). apply list_elem_of_In in Hin.
    apply filter_In in Hin as [Hin Hid]. apply list_elem_of_In in Hin.
    apply elem_of_map_to_list in Hin. cbn in *.
    apply bool_decide_eq_true in Hid. eauto.
  - intros (item & Hk & Hid). exists (k, item). split; [done|].
    apply list_elem_of_In, filter_In. split.
    + by apply list_elem_of_In, elem_of_map_to_list.
    + by apply bool_decide_eq_true.
Qed.

(** The slots [remove_embeddings] keeps, in slot order. *)
Definition kept_slots (ids : list string) (vs : t) : list nat :=
  kept (indices_to_remove ids vs) (seq 0 (ntotal vs)).

Lemma elem_of_kept_slots ids vs k :
  k ∈ kept_slots ids vs
  <-> k < ntotal vs /\ k ∉ indices_to_remove ids vs.
Proof.
  unfold kept_slots, kept. rewrite list_elem_of_In, filter_In.
  rewrite <- list_elem_of_In, elem_of_seq, negb_true_iff, bool_decide_eq_false.
  intuition lia.
Qed.

(** What the rebuilt store holds, slot by slot. *)
Lemma remove_embeddings_rebuilt ids vs :
  indices_to_remove ids vs <> [] ->
  let vs' := remove_embeddings ids vs in
  index vs' = omap (fun k => index vs !! k) (kept_slots ids vs)
  /\ forall r,
       id_map vs' !! r
       = kept_slots ids vs !! r ≫= (fun k => id_map vs !! k).
Proof.
  intros Hne. unfold remove_embeddings.
  destruct (indices_to_remove ids vs) as [|k0 removed] eqn:Hrem; [done|].
  rewrite <- Hrem.
  destruct (rebuild_foldl vs (indices_to_remove ids vs)
              (seq 0 (ntotal vs)) fresh 0) as (_ & Hindex & Hmap).
  { apply Forall_forall. intros k Hk. apply elem_of_seq in Hk. lia. }
  { intros r _. apply lookup_empty. }
  cbn zeta. split; [exact Hindex|].
  intros r. rewrite Hmap. rewrite decide_True by lia.
  by rewrite Nat.sub_0_r.
Qed.

Lemma rebuilt_index_lookup ids vs r :
  omap (fun k => index vs !! k) (kept_slots ids vs) !! r
  = kept_slots ids vs !! r ≫= (fun k => index vs !! k).
Proof.
  assert (Hall : Forall (fun k => k < ntotal vs) (kept_slots ids vs)).
  { apply Forall_forall. intros k Hk. by apply elem_of_kept_slots in Hk as [? _]. }
  revert r. induction Hall as [|k l Hk Hall IH]; intros r; [done|].
  destruct (lookup_lt_is_Some_2 (index vs) k Hk) as [v Hv].
  cbn. rewrite Hv. destruct r as [|r]; cbn; [done|]. apply IH.
Qed.

(** *** Rebuild preservation *)

(** Slot [k] holds one of the ids that are to be removed. *)
Definition removed_slot (ids : list string) (vs : t) (k : nat) : Prop :=
  exists item, id_map vs !! k = Some item /\ id item ∈ ids.

(** What a removal that turns [vs] into [vs'] has to keep: the vectors of
    the slots that stay, the item of every id that stays, attached to the
    vector it was attached to, and a gap-free slot numbering. *)
Definition rebuild_preserves (ids : list string) (vs vs' : t) : Prop :=
  (forall k v, index vs !! k = Some v -> ~ removed_slot ids vs k ->
               exists r, index vs' !! r = Some v)
  /\ (forall k item, id_map vs !! k = Some item -> id item ∉ ids ->
                     exists r, id_map vs' !! r = Some item
                               /\ index vs' !! r = index vs !! k)
  /\ slot_map_ok vs'.

Lemma kept_slot_position ids vs k :
  k < ntotal vs -> ~ removed_slot ids vs k ->
  exists r, kept_slots ids vs !! r = Some k.
Proof.
  intros Hk Hkeep. apply list_elem_of_lookup, elem_of_kept_slots.
  split; [done|]. by rewrite elem_of_indices_to_remove.
Qed.

Lemma remove_embeddings_slot_map_ok ids vs :
  slot_map_ok vs -> slot_map_ok (remove_embeddings ids vs).
Proof.
  intros Hok.
  destruct (decide (indices_to_remove ids vs = [])) as [Hnil|Hne].
  { unfold remove_embeddings. by rewrite Hnil. }
  destruct (remove_embeddings_rebuilt ids vs Hne) as [Hindex Hmap].
  apply slot_map_ok_lookup. intros r. rewrite Hmap.
  unfold ntotal. rewrite <- lookup_lt_is_Some, Hindex, rebuilt_index_lookup.
  destruct (kept_slots ids vs !! r) as [k|] eqn:Hr; cbn; [|done].
  assert (Hk : k < ntotal vs).
  { by apply list_elem_of_lookup_2, elem_of_kept_slots in Hr as [? _]. }
  split; intros _.
  - by apply lookup_lt_is_Some.
  - by apply slot_map_ok_lookup.
Qed.

(** C2, as amended.  For every store whose id map has exactly the slots of
    the index as keys, and every list of ids, [remove_embeddings] keeps
    the vector of every slot that stays as it is, keeps the item of every
    id that stays, at a slot that holds the vector the id had, and leaves
    an id map whose keys are exactly the slots of the new index. *)
Theorem remove_embeddings_preserves ids vs :
  slot_map_ok vs -> rebuild_preserves ids vs (remove_embeddings ids vs).
Proof.
  intros Hok. split; [|split].
  - intros k v Hv Hkeep.
    destruct (decide (indices_to_remove ids vs = [])) as [Hnil|Hne].
    { unfold remove_embeddings. rewrite Hnil. eauto. }
    destruct (remove_embeddings_rebuilt ids vs Hne) as [Hindex _].
    destruct (kept_slot_position ids vs k) as [r Hr]; [|done|].
    { apply lookup_lt_is_Some. eauto. }
    exists r. by rewrite Hindex, rebuilt_index_lookup, Hr.
  - intros k item Hitem Hid.
    destruct (decide (indices_to_remove ids vs = [])) as [Hnil|Hne].
    { unfold remove_embeddings. rewrite Hnil. eauto. }
    destruct (remove_embeddings_rebuilt ids vs Hne) as [Hindex Hmap].
    destruct (kept_slot_position ids vs k) as [r Hr].
    { apply slot_map_ok_lookup; eauto. }
    { intros (item' & Hitem' & Hin). congruence. }
    exists r. by rewrite Hmap, Hindex, rebuilt_index_lookup, Hr.
  - by apply remove_embeddings_slot_map_ok.
Qed.

(** [initialize] on the dangling directory installs both files. *)
Lemma dangling_disk_loaded :
  initialize dangling_disk
  = {| index := index one_vector; id_map := id_map two_vectors |}.
Proof. reflexivity. Qed.

Lemma dangling_entry_dropped :
  remove_embeddings ["d1_c0"%string] (initialize dangling_disk) = fresh.
Proof. vm_compute. reflexivity. Qed.

(** C2, counterexample.  In the store that [initialize] loads from the
    dangling directory, removing ["d1_c0"] rebuilds over [range(1)] only:
    the entry of ["d1_c1"], which sits at slot 1, is not copied, and the id
    that was to stay is mapped nowhere afterwards. *)
Lemma rebuild_drops_dangling_id :
  ~ rebuild_preserves ["d1_c0"%string] (initialize dangling_disk)
      (remove_embeddings ["d1_c0"%string] (initialize dangling_disk)).
Proof.
  intros (_ & Hids & _).
  destruct (Hids 1 (item_of "d1_c1")) as (r & Hr & _).
  - rewrite dangling_disk_loaded. cbn [id_map two_vectors].
    by rewrite lookup_insert_ne, lookup_insert_eq.
  - by intros ?%list_elem_of_singleton.
  - rewrite dangling_entry_dropped in Hr. cbn in Hr.
    by rewrite lookup_empty in Hr.
Qed.

Lemma slot_map_ok_fresh : slot_map_ok fresh.
Proof. apply slot_map_ok_lookup. intros k. cbn. rewrite lookup_empty.
       split; [by intros []|lia]. Qed.

Lemma slot_map_ok_two_vectors : slot_map_ok two_vectors.
Proof.
  apply slot_map_ok_lookup. intros k. unfold two_vectors, ntotal. cbn.
  destruct k as [|[|k]].
  - rewrite lookup_insert_eq. split; [lia|eauto].
  - rewrite lookup_insert_ne, lookup_insert_eq by done. split; [lia|eauto].
  - rewrite !lookup_insert_ne, lookup_empty by done.
    split; [by intros []|lia].
Qed.

Lemma remove_embeddings_preserves_witness :
  slot_map_ok two_vectors
  /\ rebuild_preserves ["d1_c0"%string] two_vectors
       (remove_embeddings ["d1_c0"%string] two_vectors).
Proof.
  split; [exact slot_map_ok_two_vectors|].
  apply (remove_embeddings_preserves ["d1_c0"%string] two_vectors).
  exact slot_map_ok_two_vectors.
Defined.

(** *** Loading *)

(** The id map names a slot that the index file does not have. *)
Definition references_missing_slot (d : Disk) : Prop :=
  exists idx m k,
    index_file d = Stored idx /\ id_map_file d = Stored m
    /\ is_Some (m !! k) /\ length idx <= k.

Definition missing_or_unreadable (d : Disk) : Prop :=
  read (index_file d) = None \/ read (id_map_file d) = None.

(** The claimed fallback: any of the three defects gives an empty index. *)
Definition load_fallback (d : Disk) : Prop :=
  missing_or_unreadable d \/ references_missing_slot d ->
  initialize d = fresh /\ load d = fresh.

(** C4, counterexample.  Both files of the dangling directory deserialize,
    so [load] installs them: the id map that names the missing slot 1 is
    served. *)
Lemma inconsistent_files_are_served : ~ load_fallback dangling_disk.
Proof.
  intros Hfallback. destruct Hfallback as [Hinit _].
  - right. eexists _, _, 1. split; [reflexivity|]. split; [reflexivity|].
    split; [|cbn; lia]. cbn [id_map two_vectors].
    rewrite lookup_insert_ne, lookup_insert_eq by done. eauto.
  - rewrite dangling_disk_loaded in Hinit. discriminate Hinit.
Qed.

(** C4, as amended.  When a file is missing or does not deserialize,
    [initialize] and [load] leave an empty index, without raising; when
    both files deserialize, they install what the files hold, with no check
    of one against the other. *)
Theorem load_falls_back_or_installs d :
  (missing_or_unreadable d -> initialize d = fresh /\ load d = fresh)
  /\ (forall idx m,
        index_file d = Stored idx -> id_map_file d = Stored m ->
        initialize d = {| index := idx; id_map := m |}
        /\ load d = {| index := idx; id_map := m |}).
Proof.
  destruct d as [fi fm]. unfold missing_or_unreadable, initialize, load.
  cbn [index_file id_map_file]. split.
  - intros [H|H]; destruct fi, fm; done.
  - intros idx m -> ->. done.
Qed.

Lemma load_falls_back_or_installs_witness :
  (initialize {| index_file := Absent; id_map_file := Unreadable |} = fresh
   /\ load {| index_file := Absent; id_map_file := Unreadable |} = fresh)
  /\ initialize dangling_disk <> fresh.
Proof.
  split.
  - apply (proj1 (load_falls_back_or_installs
                    {| index_file := Absent; id_map_file := Unreadable |})).
    left. reflexivity.
  - destruct (proj2 (load_falls_back_or_installs dangling_disk)
                _ _ eq_refl eq_refl) as [-> _].
    discriminate.
Defined.

(** *** Saving *)

(** The claimed crash safety: whatever prefix of the writes of [save] has
    been done, the index that was on disk before is the one [load] finds. *)
Definition crash_safe (vs : t) (d : Disk) : Prop :=
  forall n, n < length (save_steps vs) ->
            load (interrupted_save n vs d) = load d.

Lemma save_round_trip vs d : load (save vs d) = vs.
Proof. by destruct vs. Qed.

(** C5, counterexample.  The directory holds [one_vector]; a [save] of
    [two_vectors] that stops after [faiss.write_index] leaves the new index
    file next to the old id map, and [load] no longer finds the index that
    was persisted. *)
Lemma interrupted_save_corrupts :
  ~ crash_safe two_vectors (save one_vector empty_directory).
Proof.
  intros Hsafe. specialize (Hsafe 1 ltac:(cbn; lia)).
  rewrite save_round_trip in Hsafe. discriminate Hsafe.
Qed.

(** C5, as amended.  [save] writes the two live files in place, the index
    file first: stopped before its first write it leaves the directory as it
    was, stopped after the first write it leaves the new index file next to
    the old id-map file, stopped after the id-map file is opened for writing
    it leaves a directory from which [load] gets an empty index, and run to
    its end it leaves the pair that [load] gives back as the saved store. *)
Theorem save_writes_in_place vs d :
  interrupted_save 0 vs d = d
  /\ interrupted_save 1 vs d
     = {| index_file := Stored (index vs); id_map_file := id_map_file d |}
  /\ load (interrupted_save 2 vs d) = fresh
  /\ interrupted_save 3 vs d = save vs d
  /\ load (save vs d) = vs.
Proof.
  split; [done|]. split; [done|]. split; [done|]. split; [done|].
  apply save_round_trip.
Qed.

(** *** The slot-map invariant *)

(** The metadata list can be indexed by every position of the id list. *)
Definition metadata_fits (metadata : option (list (gmap string Z)))
    (embedding_ids : list string) : Prop :=
  match metadata with
  | None | Some [] => True
  | Some l => length embedding_ids <= length l
  end.

Lemma metadata_at_fits metadata ids i :
  metadata_fits metadata ids -> i < length ids ->
  is_Some (metadata_at metadata i).
Proof.
  unfold metadata_fits, metadata_at.
  destruct metadata as [[|md l]|]; eauto.
  intros Hlen Hi. apply lookup_lt_is_Some. lia.
Qed.

Lemma update_id_map_returns start metadata ids :
  forall i vs,
    (forall j, j < length ids -> is_Some (metadata_at metadata (i + j))) ->
    exists vs',
      update_id_map start i ids metadata vs = Returned vs'
      /\ index vs' = index vs
      /\ dom (id_map vs')
         = set_seq (start + i) (length ids) ∪ dom (id_map vs).
Proof.
  induction ids as [|eid ids IH]; intros i vs Hmd.
  - exists vs. cbn. split; [done|]. split; [done|].
    apply set_eq. intros k. set_unfold. intuition lia.
  - cbn [update_id_map].
    destruct (Hmd 0 ltac:(cbn; lia)) as [md Hmd0].
    rewrite Nat.add_0_r in Hmd0. rewrite Hmd0.
    edestruct (IH (S i)) as (vs' & Heq & Hindex & Hdom).
    { intros j Hj. replace (S i + j) with (i + S j) by lia.
      apply Hmd. cbn. lia. }
    exists vs'. split; [exact Heq|]. split; [by rewrite Hindex|].
    rewrite Hdom. cbn [id_map]. rewrite dom_insert_L.
    apply set_eq. intros k. set_unfold. cbn [length]. intuition lia.
Qed.

Section AddEmbeddings.
Variable embed : string -> vector.

(** With a metadata list that fits, the call returns and the index has
    grown by one row per text. *)
Lemma add_embeddings_grows texts ids metadata vs :
  metadata_fits metadata ids ->
  exists vs',
    add_embeddings embed texts ids metadata vs = Returned vs'
    /\ index vs' = index vs ++ map embed texts.
Proof.
  intros Hfits. unfold add_embeddings.
  destruct texts as [|t texts].
  { exists vs. by rewrite app_nil_r. }
  edestruct (update_id_map_returns (ntotal vs) metadata ids 0)
    as (vs' & Heq & Hindex & _).
  { intros j Hj. by eapply metadata_at_fits. }
  exists vs'. split; [exact Heq|]. exact Hindex.
Qed.

Lemma add_embeddings_returns texts ids metadata vs :
  slot_map_ok vs -> length texts = length ids ->
  metadata_fits metadata ids ->
  exists vs',
    add_embeddings embed texts ids metadata vs = Returned vs'
    /\ index vs' = index vs ++ map embed texts
    /\ slot_map_ok vs'.
Proof.
  intros Hok Hlen Hfits. unfold add_embeddings.
  destruct texts as [|t texts].
  { destruct ids; [|done]. exists vs. rewrite app_nil_r. done. }
  set (texts' := t :: texts) in *.
  edestruct (update_id_map_returns (ntotal vs) metadata ids 0)
    as (vs' & Heq & Hindex & Hdom).
  { intros j Hj. by eapply metadata_at_fits. }
  exists vs'. split; [exact Heq|]. cbn [index id_map] in *.
  split; [done|].
  unfold slot_map_ok, ntotal. rewrite Hdom, Hindex, Hok.
  rewrite length_app, length_map, Hlen. unfold ntotal.
  apply set_eq. intros k. set_unfold. intuition lia.
Qed.
End AddEmbeddings.

(** C10, as amended.  From a store whose id map has exactly the slots of
    the index as keys: [add_embeddings] with as many ids as texts, and a
    metadata list that is absent, empty, or at least as long as the ids,
    returns such a store; [remove_embeddings] and [clear] give such a
    store. *)
Theorem slot_map_invariant embed texts ids metadata removed vs :
  slot_map_ok vs -> length texts = length ids ->
  metadata_fits metadata ids ->
  (exists vs',
     add_embeddings embed texts ids metadata vs = Returned vs'
     /\ slot_map_ok vs')
  /\ slot_map_ok (remove_embeddings removed vs)
  /\ slot_map_ok (clear vs).
Proof.
  intros Hok Hlen Hfits. split; [|split].
  - destruct (add_embeddings_returns embed texts ids metadata vs)
      as (vs' & Heq & _ & Hok'); eauto.
  - by apply remove_embeddings_slot_map_ok.
  - exact slot_map_ok_fresh.
Qed.

(** The claimed invariant for [add_embeddings], with the condition on the
    lengths of the texts and the ids only. *)
Definition add_keeps_slot_map (embed : string -> vector)
    (texts ids : list string) (metadata : option (list (gmap string Z)))
    (vs : t) : Prop :=
  slot_map_ok vs -> length texts = length ids ->
  slot_map_ok (state_after (add_embeddings embed texts ids metadata vs)).

(** C10, counterexample.  Two texts, two ids and a metadata list of one
    entry: both rows are added to the index, the first id is mapped, and
    [metadata[1]] raises [IndexError] before the second id is: slot 1 stays
    without an entry. *)
Lemma short_metadata_breaks_slot_map :
  ~ add_keeps_slot_map zero_embedder ["a"; "b"]%string
      ["d1_c0"; "d1_c1"]%string (Some [∅]) fresh.
Proof.
  intros Hkeeps. specialize (Hkeeps slot_map_ok_fresh eq_refl).
  pose proof (proj1 (slot_map_ok_lookup _) Hkeeps 1) as Hslot.
  destruct (proj2 Hslot) as [item Hitem]; [cbn; lia|].
  cbn in Hitem. by rewrite lookup_insert_ne, lookup_empty in Hitem.
Qed.

Lemma slot_map_invariant_witness :
  (exists vs',
     add_embeddings zero_embedder ["a"; "b"]%string
       ["d1_c2"; "d1_c3"]%string (Some [∅; ∅]) two_vectors = Returned vs'
     /\ slot_map_ok vs')
  /\ slot_map_ok (remove_embeddings ["d1_c0"%string] two_vectors)
  /\ slot_map_ok (clear two_vectors).
Proof.
  apply (slot_map_invariant zero_embedder ["a"; "b"]%string
           ["d1_c2"; "d1_c3"]%string (Some [∅; ∅]) ["d1_c0"%string]
           two_vectors).
  - exact slot_map_ok_two_vectors.
  - reflexivity.
  - cbn. lia.
Defined.
End VectorStoreSpec.

(** ** The order of binary64 numbers *)

Module FloatOrder.

(** A float that is not a NaN. *)
Definition number (x : float) : Prop := PrimFloat.is_nan x = false.

Ltac order_cases :=
  repeat match goal with
    | |- context [Z.compare ?a ?b] =>
        destruct (Z.compare_spec a b); try lia
    | |- context [Pos.compare_cont Eq ?a ?b] =>
        change (Pos.compare_cont Eq a b) with (Pos.compare a b);
        destruct (Pos.compare_spec a b); try lia
    end.

Lemma SFltb_asym a b : SFltb a b = true -> SFltb b a = false.
Proof.
  unfold SFltb, SFcompare.
  destruct a as [[]|[]| |[] ma ea], b as [[]|[]| |[] mb eb];
    try done; order_cases; done.
Qed.

Lemma SFltb_negtrans a b c :
  a <> S754_nan -> b <> S754_nan -> c <> S754_nan ->
  SFltb a b = false -> SFltb b c = false -> SFltb a c = false.
Proof.
  unfold SFltb, SFcompare.
  destruct a as [[]|[]| |[] ma ea], b as [[]|[]| |[] mb eb],
    c as [[]|[]| |[] mc ec]; try done; intros _ _ _;
    order_cases; done.
Qed.

Lemma number_spec x : number x -> Prim2SF x <> S754_nan.
Proof.
  unfold number, PrimFloat.is_nan. rewrite FloatAxioms.eqb_spec.
  intros H Hnan. rewrite Hnan in H. done.
Qed.

Lemma ltb_asym x y : (x <? y)%float = true -> (y <? x)%float = false.
Proof. rewrite !ltb_spec. apply SFltb_asym. Qed.

Lemma ltb_negtrans x y z :
  number x -> number y -> number z ->
  (x <? y)%float = false -> (y <? z)%float = false -> (x <? z)%float = false.
Proof.
  intros Hx%number_spec Hy%number_spec Hz%number_spec. rewrite !ltb_spec.
  by apply SFltb_negtrans.
Qed.

(** Two floats that one conversion to sign, mantissa and exponent tells
    apart are different. *)
Lemma different (x y : float) :
  Prim2SF x <> Prim2SF y -> Some x <> Some y.
Proof.
  intros Hne Heq. apply Hne.
  change (Prim2SF (default x (Some x)) = Prim2SF (default x (Some y))).
  by rewrite Heq.
Qed.

End FloatOrder.

(** ** Score fusion *)

Module RetrievalSpec.
Import Retrieval.
Import FloatOrder.

(** *** The formula of the specification *)

(** [min(l, 1.0)]: 1 for a lexical score above 1, the score otherwise. *)
Definition capped (l : float) : float :=
  if (1 <? l)%float then 1%float else l.

(** The score a source gives to an id: that of its first result for the
    id. *)
Fixpoint score_of (k : string) (hits : list Hit) : option float :=
  match hits with
  | [] => None
  | h :: r =>
      if String.eqb k (hit_id h) then Some (hit_score h) else score_of k r
  end.

(** The fused score as the specification writes it: each source adds its
    weighted term only for an id it returned.  The product and the sum are
    those of binary64. *)
Definition fused (vector_weight bm25_weight : float)
    (dense lexical : list Hit) (k : string) : option float :=
  match score_of k dense, score_of k lexical with
  | Some d, Some l =>
      Some (vector_weight * d + bm25_weight * capped l)%float
  | Some d, None => Some (vector_weight * d)%float
  | None, Some l => Some (bm25_weight * capped l)%float
  | None, None => None
  end.

(** What a source that names an id more than once comes to: of the dense
    results the last one for the id counts, and every lexical result for
    the id adds its term, in the order of the results. *)
Definition last_score (k : string) (hits : list Hit) : option float :=
  score_of k (rev hits).

Definition scores_of (k : string) (hits : list Hit) : list float :=
  map hit_score (List.filter (fun h => String.eqb k (hit_id h)) hits).

Definition add_term (bm25_weight acc l : float) : float :=
  (acc + bm25_weight * capped l)%float.

Definition fused_repeated (vector_weight bm25_weight : float)
    (dense lexical : list Hit) (k : string) : option float :=
  match last_score k dense, scores_of k lexical with
  | Some d, ls => Some (foldl (add_term bm25_weight) (vector_weight * d)%float ls)
  | None, l :: ls =>
      Some (foldl (add_term bm25_weight) (bm25_weight * capped l)%float ls)
  | None, [] => None
  end.

Lemma min_one_capped l : min_one l = capped l.
Proof. reflexivity. Qed.

Lemma dict_get_set_eq k v d : dict_get k (dict_set k v d) = Some v.
Proof.
  induction d as [|[k' v'] d IH]; cbn.
  - by rewrite String.eqb_refl.
  - destruct (String.eqb k k') eqn:Hk; cbn; rewrite ?String.eqb_refl, ?Hk; done.
Qed.

Lemma dict_get_set_ne k k' v d :
  k <> k' -> dict_get k (dict_set k' v d) = dict_get k d.
Proof.
  intros Hne. apply String.eqb_neq in Hne.
  induction d as [|[k0 v0] d IH]; cbn.
  - by rewrite Hne.
  - destruct (String.eqb k' k0) eqn:Hk0; cbn.
    + apply String.eqb_eq in Hk0 as <-. by rewrite Hne.
    + destruct (String.eqb k k0); [done|apply IH].
Qed.

Lemma score_of_None k hits : k ∉ map hit_id hits -> score_of k hits = None.
Proof.
  induction hits as [|h hits IH]; [done|]. cbn. intros Hk.
  apply not_elem_of_cons in Hk as [Hne Hk].
  apply String.eqb_neq in Hne. rewrite Hne. by apply IH.
Qed.

Lemma score_of_app k hits hits' :
  score_of k (hits ++ hits')
  = match score_of k hits with
    | Some s => Some s
    | None => score_of k hits'
    end.
Proof.
  induction hits as [|h hits IH]; [done|]. cbn.
  by destruct (String.eqb k (hit_id h)).
Qed.

Lemma last_score_cons k h hits :
  last_score k (h :: hits)
  = match last_score k hits with
    | Some s => Some s
    | None => if String.eqb k (hit_id h) then Some (hit_score h) else None
    end.
Proof. unfold last_score. cbn [rev]. by rewrite score_of_app. Qed.

Section Fusion.
Variables vector_weight bm25_weight : float.

(** *** Every pair of result lists *)

Lemma add_vector_results_last dense d k :
  dict_get k (add_vector_results vector_weight dense d)
  = match last_score k dense with
    | Some s => Some (vector_weight * s)%float
    | None => dict_get k d
    end.
Proof.
  revert d. induction dense as [|h dense IH]; intros d; [done|].
  unfold add_vector_results in *. cbn [foldl].
  rewrite IH, last_score_cons.
  destruct (last_score k dense); [done|].
  destruct (String.eqb k (hit_id h)) eqn:Hk.
  - apply String.eqb_eq in Hk as ->. by rewrite dict_get_set_eq.
  - apply String.eqb_neq in Hk. by rewrite dict_get_set_ne.
Qed.

Lemma add_bm25_results_all lexical d k :
  dict_get k (add_bm25_results bm25_weight lexical d)
  = match dict_get k d, scores_of k lexical with
    | Some old, ls => Some (foldl (add_term bm25_weight) old ls)
    | None, l :: ls =>
        Some (foldl (add_term bm25_weight) (bm25_weight * capped l)%float ls)
    | None, [] => None
    end.
Proof.
  revert d. induction lexical as [|h lexical IH]; intros d.
  { cbn. by destruct (dict_get k d). }
  unfold add_bm25_results in *. cbn [foldl]. rewrite IH.
  unfold scores_of. cbn [List.filter].
  destruct (String.eqb k (hit_id h)) eqn:Hk.
  - apply String.eqb_eq in Hk as ->. cbn [map foldl].
    destruct (dict_get (hit_id h) d) as [old|];
      by rewrite dict_get_set_eq.
  - apply String.eqb_neq in Hk.
    destruct (dict_get (hit_id h) d) as [old|];
      by rewrite dict_get_set_ne.
Qed.

Lemma combined_scores_repeated dense lexical k :
  dict_get k (combined_scores vector_weight bm25_weight dense lexical)
  = fused_repeated vector_weight bm25_weight dense lexical k.
Proof.
  unfold combined_scores, fused_repeated.
  rewrite add_bm25_results_all, add_vector_results_last. cbn [dict_get].
  by destruct (last_score k dense).
Qed.

(** *** Result lists that name an id once *)

Lemma add_vector_results_get dense d k :
  NoDup (map hit_id dense) ->
  dict_get k (add_vector_results vector_weight dense d)
  = match score_of k dense with
    | Some s => Some (vector_weight * s)%float
    | None => dict_get k d
    end.
Proof.
  revert d. induction dense as [|h dense IH]; intros d Hnd; [done|].
  cbn in Hnd. apply NoDup_cons in Hnd as [Hh Hnd].
  unfold add_vector_results in *. cbn [foldl score_of]. rewrite IH by done.
  destruct (String.eqb k (hit_id h)) eqn:Hk.
  - apply String.eqb_eq in Hk as ->.
    by rewrite score_of_None, dict_get_set_eq.
  - apply String.eqb_neq in Hk. by rewrite dict_get_set_ne.
Qed.

Lemma add_bm25_results_get lexical d k :
  NoDup (map hit_id lexical) ->
  dict_get k (add_bm25_results bm25_weight lexical d)
  = match score_of k lexical with
    | Some s =>
        match dict_get k d with
        | Some old => Some (old + bm25_weight * capped s)%float
        | None => Some (bm25_weight * capped s)%float
        end
    | None => dict_get k d
    end.
Proof.
  revert d. induction lexical as [|h lexical IH]; intros d Hnd; [done|].
  cbn in Hnd. apply NoDup_cons in Hnd as [Hh Hnd].
  unfold add_bm25_results in *. cbn [foldl score_of]. rewrite IH by done.
  destruct (String.eqb k (hit_id h)) eqn:Hk.
  - apply String.eqb_eq in Hk as ->. rewrite score_of_None by done.
    rewrite min_one_capped.
    destruct (dict_get (hit_id h) d); by rewrite dict_get_set_eq.
  - apply String.eqb_neq in Hk.
    destruct (dict_get (hit_id h) d); by rewrite dict_get_set_ne.
Qed.

Lemma combined_scores_get dense lexical k :
  NoDup (map hit_id dense) -> NoDup (map hit_id lexical) ->
  dict_get k (combined_scores vector_weight bm25_weight dense lexical)
  = fused vector_weight bm25_weight dense lexical k.
Proof.
  intros Hd Hl. unfold combined_scores, fused.
  rewrite add_bm25_results_get, add_vector_results_get by done.
  destruct (score_of k dense), (score_of k lexical); done.
Qed.
End Fusion.

(** *** The ranking *)

(** [y], which comes later in the ranking, does not beat [x]. *)
Definition outranks (x y : string * float) : Prop :=
  (snd x <? snd y)%float = false.

Lemma insert_desc_perm x l : insert_desc x l ≡ₚ x :: l.
Proof.
  induction l as [|y l IH]; cbn; [done|].
  destruct (snd x <? snd y)%float; [|done].
  rewrite IH. apply Permutation_swap.
Qed.

Lemma insert_desc_sorted x l :
  number (snd x) -> Forall (fun y => number (snd y)) l ->
  StronglySorted outranks l -> StronglySorted outranks (insert_desc x l).
Proof.
  intros Hx Hl Hsorted. induction Hsorted as [|y l Hsorted IH Hy]; cbn.
  - by repeat constructor.
  - apply Forall_cons in Hl as [Hny Hl].
    destruct (snd x <? snd y)%float eqn:Hlt.
    + constructor; [by apply IH|]. rewrite insert_desc_perm.
      constructor; [|exact Hy]. by apply ltb_asym.
    + constructor; [by constructor|].
      constructor; [exact Hlt|].
      rewrite Forall_forall in Hy, Hl. apply Forall_forall. intros z Hz.
      apply (ltb_negtrans _ (snd y)); auto. by apply Hy.
Qed.

Lemma sorted_desc_perm d : sorted_desc d ≡ₚ d.
Proof.
  induction d as [|x d IH]; cbn; [done|]. by rewrite insert_desc_perm, IH.
Qed.

Lemma sorted_desc_sorted d :
  Forall (fun y => number (snd y)) d -> StronglySorted outranks (sorted_desc d).
Proof.
  induction d as [|x d IH]; cbn; [constructor|].
  intros [Hx Hd]%Forall_cons. apply insert_desc_sorted; [done| |by apply IH].
  by rewrite sorted_desc_perm.
Qed.

(** *** The example of the specification *)

Definition dense_x : list Hit := [("X"%string, 0.8%float, ∅)].
Definition lexical_y : list Hit := [("Y"%string, 0.6%float, ∅)].

(** A lexical result above the cap, and one id named by two lexical
    results, as the index gives them for two stored chunks with one
    embedding id. *)
Definition lexical_high : list Hit := [("Y"%string, 2.5%float, ∅)].

Definition lexical_twice : list Hit :=
  [("Y"%string, 0.6%float, ∅); ("Y"%string, 0.6%float, ∅)].

(** One id named by two dense results, as the index gives them when it
    holds two vectors under one embedding id. *)
Definition dense_twice : list Hit :=
  [("X"%string, 0.8%float, ∅); ("X"%string, 0.5%float, ∅)].

(** The claim as it stands: for all results, every id gets the score of
    the formula; and the score of X in the example is 0.56. *)
Definition fusion_as_claimed (dense lexical : list Hit) : Prop :=
  forall k,
    dict_get k (combined_scores 0.7 0.3 dense lexical)
    = fused 0.7 0.3 dense lexical k.

Definition example_as_claimed : Prop :=
  dict_get "X" (combined_scores 0.7 0.3 dense_x lexical_y)
  = Some 0.56%float.

(** C3, counterexample.  An id that the lexical results name twice gets its
    lexical term twice: 0.36 where the formula gives 0.18.  An id that the
    dense results name twice, at 0.8 and then at 0.5, is scored by the later
    result: 0.35 where the formula, with the score the id first has, gives
    0.5599999999999999.  And in the example the score of X is the binary64
    product of 0.7 and 0.8, which is 0.5599999999999999, the float next
    below 0.56. *)
Lemma fusion_claim_fails :
  ~ fusion_as_claimed [] lexical_twice
  /\ ~ fusion_as_claimed dense_twice []
  /\ ~ example_as_claimed.
Proof.
  split; [|split].
  - intros Hclaim. specialize (Hclaim "Y"%string).
    revert Hclaim. vm_compute. apply different. vm_compute. discriminate.
  - intros Hclaim. specialize (Hclaim "X"%string).
    revert Hclaim. vm_compute. apply different. vm_compute. discriminate.
  - unfold example_as_claimed. vm_compute.
    apply different. vm_compute. discriminate.
Qed.

(** C3, as amended.  For all results of the two sources, the score that
    [search] gives an id is [fused_repeated]: the weighted dense score that
    the last dense result for the id has, if there is one, to which every
    lexical result for the id adds its weighted score capped at 1.  When
    each source names an id at most once this is the formula of the
    specification, [fused], in binary64 arithmetic: an id of one source
    only gets that source's term alone.  The ranking is a permutation of
    the scored ids, and when no score is a NaN no id in it is beaten by a
    later one.  With weights 0.7 and 0.3, X at 0.8 in the dense results only
    and Y at 0.6 in the lexical results only, X gets 0.5599999999999999, Y
    gets 0.18, and X is ranked first; a lexical score of 2.5 counts as 1. *)
Theorem fusion_arithmetic vector_weight bm25_weight dense lexical :
  let scores := combined_scores vector_weight bm25_weight dense lexical in
  (forall k,
     dict_get k scores
     = fused_repeated vector_weight bm25_weight dense lexical k)
  /\ (NoDup (map hit_id dense) -> NoDup (map hit_id lexical) ->
      forall k,
        dict_get k scores = fused vector_weight bm25_weight dense lexical k)
  /\ sorted_desc scores ≡ₚ scores
  /\ (Forall (fun x => number (snd x)) scores ->
      StronglySorted outranks (sorted_desc scores))
  /\ candidates 0.7 0.3 5 dense_x lexical_y
     = [("X"%string, 0.5599999999999999%float); ("Y"%string, 0.18%float)]
  /\ combined_scores 0.7 0.3 [] lexical_high = [("Y"%string, 0.3%float)].
Proof.
  intros scores. split; [|split; [|split; [|split; [|split]]]].
  - intros k. apply combined_scores_repeated.
  - intros Hd Hl k. by apply combined_scores_get.
  - apply sorted_desc_perm.
  - apply sorted_desc_sorted.
  - reflexivity.
  - reflexivity.
Qed.

Lemma fusion_arithmetic_witness :
  dict_get "X" (combined_scores 0.7 0.3 dense_x lexical_y)
  = Some (0.7 * 0.8)%float
  /\ dict_get "Y" (combined_scores 0.7 0.3 dense_x lexical_y)
     = Some (0.3 * 0.6)%float
  /\ dict_get "Y" (combined_scores 0.7 0.3 [] lexical_twice)
     = Some (0.3 * 0.6 + 0.3 * 0.6)%float
  /\ StronglySorted outranks
       (sorted_desc (combined_scores 0.7 0.3 dense_x lexical_y)).
Proof.
  destruct (fusion_arithmetic 0.7 0.3 dense_x lexical_y)
    as (_ & Hget & _ & Hrank & _).
  destruct (fusion_arithmetic 0.7 0.3 [] lexical_twice) as (Hall & _).
  assert (Hx : NoDup (map hit_id dense_x)).
  { repeat constructor. by intros ?%elem_of_nil. }
  assert (Hy : NoDup (map hit_id lexical_y)).
  { repeat constructor. by intros ?%elem_of_nil. }
  split; [by rewrite (Hget Hx Hy)|]. split; [by rewrite (Hget Hx Hy)|].
  split; [by rewrite Hall|].
  apply Hrank. by repeat constructor.
Defined.
End RetrievalSpec.

(** ** The deduplicator *)

Module DedupSpec.
Import Dedup.
Local Open Scope nat_scope.

(** *** What is kept and what is dropped *)

Lemma elem_of_to_remove_acc (groups : list (list nat)) (acc : gset nat) j :
  j ∈ foldl (fun acc group => list_to_set (tail group) ∪ acc) acc groups
  <-> j ∈ acc \/ exists g, g ∈ groups /\ j ∈ tail g.
Proof.
  revert acc. induction groups as [|g groups IH]; intros acc; cbn [foldl].
  - split; [auto|]. intros [H|(g & Hg & _)]; [done|].
    by apply elem_of_nil in Hg.
  - rewrite IH, elem_of_union, elem_of_list_to_set. split.
    + intros [[H|H]|(g' & Hg' & Hj)]; eauto.
      * right. exists g. split; [left|done].
      * right. exists g'. split; [by right|done].
    + intros [H|(g' & Hg' & Hj)]; eauto.
      apply elem_of_cons in Hg' as [->|Hg']; eauto.
Qed.

Lemma elem_of_to_remove (groups : list (list nat)) j :
  j ∈ to_remove groups <-> exists g, g ∈ groups /\ j ∈ tail g.
Proof.
  unfold to_remove. rewrite elem_of_to_remove_acc.
  split; [intros [H|H]; [by apply elem_of_empty in H|done]|auto].
Qed.

(** The pairs [(i, chunk)] that pass the filter of the list
    comprehension. *)
Definition survivors {A} (marked : gset nat) (chunks : list A)
  : list (nat * A) :=
  List.filter (fun p => negb (bool_decide (fst p ∈ marked)))
    (imap pair chunks).

Lemma elem_of_survivors {A} (marked : gset nat) (chunks : list A) i c :
  (i, c) ∈ survivors marked chunks <-> chunks !! i = Some c /\ i ∉ marked.
Proof.
  unfold survivors. rewrite list_elem_of_In, filter_In.
  rewrite <- list_elem_of_In.
  rewrite elem_of_lookup_imap, negb_true_iff, bool_decide_eq_false. cbn.
  split.
  - intros [(i' & c' & [= -> ->] & Hc) Hi]. done.
  - intros [Hc Hi]. eauto.
Qed.

Lemma survivors_empty {A} (chunks : list A) k :
  map snd
    (List.filter (fun p => negb (bool_decide (fst p ∈ (∅ : gset nat))))
       (imap (fun i => pair (k + i)) chunks))
  = chunks.
Proof.
  revert k. induction chunks as [|c chunks IH]; intros k; [done|].
  cbn. f_equal.
  rewrite <- (IH (S k)) at 2. do 2 f_equal.
  apply imap_ext. intros i x _. cbn. f_equal. lia.
Qed.

Lemma keep_unmarked_empty {A} (chunks : list A) :
  keep_unmarked ∅ chunks = chunks.
Proof. apply (survivors_empty chunks 0). Qed.

Section Grouping.
Variable sim : nat -> nat -> Q.
Variable thr : Q.
Variable n : nat.

Lemma similar_after_gt i j : j ∈ similar_after sim thr n i -> i < j.
Proof.
  unfold similar_after. rewrite list_elem_of_In, filter_In.
  rewrite <- list_elem_of_In, elem_of_seq. lia.
Qed.

Lemma group_step_seen groups processed i :
  i ∈ processed ->
  group_step sim thr n (groups, processed) i = (groups, processed).
Proof. intros Hi. unfold group_step. by rewrite bool_decide_eq_true_2. Qed.

Lemma group_step_new groups processed i j js :
  i ∉ processed -> similar_after sim thr n i = j :: js ->
  group_step sim thr n (groups, processed) i
  = (groups ++ [i :: j :: js],
     {[i]} ∪ (list_to_set (j :: js) ∪ processed)).
Proof.
  intros Hi Hjs. unfold group_step.
  by rewrite bool_decide_eq_false_2, Hjs.
Qed.

Lemma group_step_alone groups processed i :
  i ∉ processed -> similar_after sim thr n i = [] ->
  group_step sim thr n (groups, processed) i
  = (groups, list_to_set [] ∪ processed).
Proof.
  intros Hi Hjs. unfold group_step.
  by rewrite bool_decide_eq_false_2, Hjs.
Qed.

(** What holds of [(similar_groups, processed)] once the indices below
    [k] have been visited. *)
Definition grouped (k : nat) (acc : list (list nat) * gset nat) : Prop :=
  (forall g, g ∈ fst acc ->
             exists i js, g = i :: js /\ js <> [] /\ i < k
                          /\ forall j, j ∈ js -> i < j /\ j ∈ snd acc)
  /\ (forall g g' i js, g ∈ fst acc -> g' ∈ fst acc -> g = i :: js ->
                        i ∉ tail g').

Lemma group_step_grouped k acc :
  grouped k acc -> grouped (S k) (group_step sim thr n acc k).
Proof.
  destruct acc as [groups processed]. intros [Hshape Hheads].
  unfold group_step. case_bool_decide as Hseen.
  { split; [|exact Hheads]. intros g Hg.
    destruct (Hshape g Hg) as (i & js & -> & Hne & Hi & Hjs).
    exists i, js. repeat split; auto; try lia; by apply Hjs. }
  pose proof (similar_after_gt k) as Hgt.
  destruct (similar_after sim thr n k) as [|j0 js0] eqn:Hjs0.
  { split; [|exact Hheads]. cbn [fst snd] in *. intros g Hg.
    destruct (Hshape g Hg) as (i & js & -> & Hne & Hi & Hjs).
    exists i, js. split; [done|]. split; [done|]. split; [lia|].
    intros j Hj. destruct (Hjs j Hj). split; [done|].
    by apply elem_of_union_r. }
  cbn [fst snd] in *. split.
  - intros g Hg. apply elem_of_app in Hg as [Hg|Hg].
    + destruct (Hshape g Hg) as (i & js & -> & Hne & Hi & Hjs).
      exists i, js. split; [done|]. split; [done|]. split; [lia|].
      intros j Hj. destruct (Hjs j Hj). split; [done|].
      apply elem_of_union_r. by apply elem_of_union_r.
    + apply list_elem_of_singleton in Hg as ->.
      exists k, (j0 :: js0). split; [done|]. split; [done|].
      split; [lia|]. intros j Hj. split; [by apply Hgt|].
      apply elem_of_union_r, elem_of_union_l.
      by apply elem_of_list_to_set.
  - intros g g' i js Hg Hg' ->.
    apply elem_of_app in Hg as [Hg|Hg];
      apply elem_of_app in Hg' as [Hg'|Hg'].
    + exact (Hheads _ g' i js Hg Hg' eq_refl).
    + apply list_elem_of_singleton in Hg' as ->. cbn [tail].
      destruct (Hshape _ Hg) as (i' & js' & [= <- <-] & _ & Hi & _).
      intros Hin. apply Hgt in Hin. lia.
    + apply list_elem_of_singleton in Hg as [= -> ->].
      destruct (Hshape _ Hg') as (i' & js' & -> & _ & _ & Hjs').
      cbn [tail]. intros Hin. by destruct (Hjs' _ Hin).
    + apply list_elem_of_singleton in Hg as [= -> ->].
      apply list_elem_of_singleton in Hg' as ->. cbn [tail].
      intros Hin. apply Hgt in Hin. lia.
Qed.

Lemma group_loop_grouped k :
  grouped k (foldl (group_step sim thr n) ([], ∅) (seq 0 k)).
Proof.
  induction k as [|k IH].
  - split; intros g; cbn; intros; by apply elem_of_nil in H.
  - rewrite seq_S, foldl_app. cbn [foldl]. by apply group_step_grouped.
Qed.
End Grouping.

Section WithVectorizer.
Variable tfidf_cosine : list string -> option (nat -> nat -> Q).

Lemma find_similar_chunks_heads texts thr g :
  g ∈ find_similar_chunks tfidf_cosine texts thr ->
  exists i js,
    g = i :: js /\ js <> [] /\ (forall j, j ∈ js -> i < j)
    /\ (i ∉ to_remove (find_similar_chunks tfidf_cosine texts thr))
    /\ (forall j, j ∈ js ->
                  j ∈ to_remove (find_similar_chunks tfidf_cosine texts thr)).
Proof.
  unfold find_similar_chunks.
  destruct (length texts <? 2); [by intros ?%elem_of_nil|].
  destruct (tfidf_cosine texts) as [sim|]; [|by intros ?%elem_of_nil].
  destruct (group_loop_grouped sim thr (length texts) (length texts))
    as [Hshape Hheads].
  intros Hg. destruct (Hshape g Hg) as (i & js & -> & Hne & _ & Hjs).
  exists i, js. split; [done|]. split; [done|].
  split; [intros j Hj; by apply Hjs|]. split.
  - rewrite elem_of_to_remove. intros (g' & Hg' & Hin).
    exact (Hheads _ g' i js Hg Hg' eq_refl Hin).
  - intros j Hj. apply elem_of_to_remove. eauto.
Qed.

(** When the vectorizer raises, nothing is removed. *)
Lemma deduplicate_chunks_fails_open chunks thr :
  tfidf_cosine (map Chunker.c_text chunks) = None ->
  deduplicate_chunks tfidf_cosine chunks thr = chunks.
Proof.
  intros Hfail. unfold deduplicate_chunks, find_similar_chunks.
  destruct chunks as [|c chunks]; [done|]. rewrite Hfail.
  destruct (_ <? _); apply keep_unmarked_empty.
Qed.

(** The batch of the specification: any three chunks with these texts. *)
Definition batch_texts : list string :=
  ["A duplicate sentence."; "A duplicate sentence."; "Something else."]%string.

(** C9.  For three chunks with the texts of the specification's batch, a
    vectorizer that rates the two equal texts at 0.9 or more and the third
    text below 0.9 against the first (scikit-learn gives 1 and 0: the third
    text has stop words only), and threshold 0.9: [deduplicate_chunks]
    returns the first and the third chunk.  In general it returns the chunks
    whose index is not in [to_remove], and of every group of similar chunks
    the first index, which is the lowest, is not in [to_remove] while all
    the others are. *)
Theorem dedup_keeps_first_occurrence c0 c1 c2 sim :
  map Chunker.c_text [c0; c1; c2] = batch_texts ->
  tfidf_cosine batch_texts = Some sim ->
  (0.9 <= sim 0%nat 1%nat)%Q -> ~ (0.9 <= sim 0%nat 2%nat)%Q ->
  deduplicate_chunks tfidf_cosine [c0; c1; c2] 0.9 = [c0; c2]
  /\ (forall chunks thr,
        deduplicate_chunks tfidf_cosine chunks thr
        = map snd
            (survivors
               (to_remove
                  (find_similar_chunks tfidf_cosine
                     (map Chunker.c_text chunks) thr))
               chunks))
  /\ (forall texts thr g,
        g ∈ find_similar_chunks tfidf_cosine texts thr ->
        exists i js,
          g = i :: js /\ js <> [] /\ (forall j, j ∈ js -> i < j)
          /\ (i ∉ to_remove (find_similar_chunks tfidf_cosine texts thr))
          /\ (forall j, j ∈ js ->
                j ∈ to_remove
                      (find_similar_chunks tfidf_cosine texts thr))).
Proof.
  intros Htexts Hsim H01 H02. split; [|split].
  - unfold deduplicate_chunks, find_similar_chunks. rewrite Htexts, Hsim.
    apply Qle_bool_iff in H01.
    assert (Qle_bool 0.9 (sim 0 2) = false) as H02'.
    { destruct (Qle_bool 0.9 (sim 0 2)) eqn:Hb; [|done].
      by apply Qle_bool_iff in Hb. }
    assert (Hs0 : similar_after sim 0.9 3 0 = [1]).
    { unfold similar_after. cbn [seq Nat.sub List.filter].
      by rewrite H01, H02'. }
    cbn [batch_texts length Nat.ltb Nat.leb seq foldl].
    rewrite (group_step_new sim 0.9 3 [] ∅ 0 1 []);
      [|apply not_elem_of_empty|exact Hs0].
    rewrite group_step_seen
      by (apply elem_of_union_r, elem_of_union_l, elem_of_list_to_set;
          apply list_elem_of_here).
    rewrite group_step_alone; [reflexivity| |reflexivity].
    set_unfold. lia.
  - intros chunks thr. unfold deduplicate_chunks.
    by destruct chunks.
  - apply find_similar_chunks_heads.
Qed.
End WithVectorizer.

(** A vectorizer that gives equal texts similarity 1 and different texts
    similarity 0. *)
Definition exact_cosine (texts : list string) : option (nat -> nat -> Q) :=
  Some (fun i j =>
          if bool_decide (texts !! i = texts !! j) then 1%Q else 0%Q).

Definition plain_chunk (i : nat) (t : string) : Chunker.Chunk :=
  Chunker.decorate None i
    {| Chunker.text := t; Chunker.start := 0; Chunker.end_ := Py.len t |}.

Lemma dedup_keeps_first_occurrence_witness :
  deduplicate_chunks exact_cosine
    [plain_chunk 0 "A duplicate sentence.";
     plain_chunk 1 "A duplicate sentence.";
     plain_chunk 2 "Something else."] 0.9
  = [plain_chunk 0 "A duplicate sentence.";
     plain_chunk 2 "Something else."].
Proof.
  apply (dedup_keeps_first_occurrence exact_cosine
           (plain_chunk 0 "A duplicate sentence.")
           (plain_chunk 1 "A duplicate sentence.")
           (plain_chunk 2 "Something else.")
           (fun i j => if bool_decide (batch_texts !! i = batch_texts !! j)
                       then 1%Q else 0%Q)).
  - reflexivity.
  - reflexivity.
  - vm_compute. discriminate.
  - vm_compute. intros H. apply H. reflexivity.
Defined.

(** *** The fuzzy check *)

Section Fuzzy.
Variable Signature : Type.
Variable minhash : string -> Signature.
Variable collide : Signature -> Signature -> bool.

(** C8, at a failing input.  On a new [Deduplicator], a first
    [is_duplicate_fuzzy] finds nothing and inserts its signature under the
    key ["doc_0"]; a second one, for a text whose signature does not collide
    with the first, finds nothing either and inserts under ["doc_0"] again,
    [seen_hashes] being as empty as before: [MinHashLSH.insert] raises
    [ValueError], and nothing in the method catches it. *)
Theorem second_fuzzy_check_raises thr t1 t2 :
  collide (minhash t1) (minhash t2) = false ->
  exists d1,
    is_duplicate_fuzzy minhash collide t1 (new thr)
    = Returned (false, 0%Q) d1
    /\ is_duplicate_fuzzy minhash collide t2 d1 = Raised "ValueError" d1.
Proof.
  intros Hdiff. eexists. split; [reflexivity|].
  unfold is_duplicate_fuzzy, lsh_query, lsh_insert.
  cbn [lsh seen_hashes new List.filter map fst snd app].
  rewrite Hdiff. cbn [map].
  rewrite bool_decide_eq_true_2 by apply list_elem_of_here.
  reflexivity.
Qed.
End Fuzzy.

Lemma second_fuzzy_check_raises_witness :
  exists d1,
    is_duplicate_fuzzy (fun t => t) String.eqb "alpha beta" (new 0.85)
    = Returned (false, 0%Q) d1
    /\ is_duplicate_fuzzy (fun t => t) String.eqb "gamma delta" d1
       = Raised "ValueError" d1.
Proof.
  apply (second_fuzzy_check_raises string (fun t => t) String.eqb 0.85%Q
           "alpha beta" "gamma delta").
  reflexivity.
Defined.
End DedupSpec.

(** ** The ingestion pipeline *)

Module PipelineSpec.
Import Pipeline.
Local Open Scope nat_scope.

(** *** The metadata store *)

Section Store.
Variable sha256 : string -> string.
Variable path_name : string -> string.

Lemma find_path_snoc path (docs : list DocumentStore.Document) doc :
  List.find (fun d => String.eqb (DocumentStore.file_path d) path) docs
  = None ->
  DocumentStore.file_path doc = path ->
  List.find (fun d => String.eqb (DocumentStore.file_path d) path)
    (docs ++ [doc]) = Some doc.
Proof.
  intros Hnone Hpath. induction docs as [|d docs IH]; cbn in *.
  - by rewrite Hpath, String.eqb_refl.
  - destruct (String.eqb (DocumentStore.file_path d) path); [done|].
    by apply IH.
Qed.

Lemma find_path_replaced path (docs : list DocumentStore.Document)
    existing updated :
  List.find (fun d => String.eqb (DocumentStore.file_path d) path) docs
  = Some existing ->
  DocumentStore.file_path updated = path ->
  List.find (fun d => String.eqb (DocumentStore.file_path d) path)
    (map (fun d =>
            if (DocumentStore.doc_id d =? DocumentStore.doc_id existing)
            then updated else d) docs)
  = Some updated.
Proof.
  intros Hfind Hpath. induction docs as [|d docs IH]; cbn in *; [done|].
  destruct (String.eqb (DocumentStore.file_path d) path) eqn:Hd.
  - injection Hfind as ->. by rewrite Nat.eqb_refl, Hpath, String.eqb_refl.
  - destruct (DocumentStore.doc_id d =? DocumentStore.doc_id existing).
    + by rewrite Hpath, String.eqb_refl.
    + rewrite Hd. by apply IH.
Qed.

(** After [add_document] the store holds the returned document under
    the path, with the checksum of the content it was given. *)
Lemma add_document_stored path content mime lang ttl ds doc ds' :
  DocumentStore.add_document sha256 path_name path content mime lang ttl ds
  = (doc, ds') ->
  DocumentStore.get_document path ds' = Some doc
  /\ DocumentStore.checksum doc = sha256 content.
Proof.
  unfold DocumentStore.add_document, DocumentStore.get_document,
    DocumentStore.compute_checksum.
  destruct (List.find _ (DocumentStore.documents ds)) as [existing|]
    eqn:Hfind.
  - destruct (String.eqb (DocumentStore.checksum existing) (sha256 content))
      eqn:Hsum; cbn [negb]; intros [= <- <-].
    + split; [done|]. by apply String.eqb_eq.
    + cbn. split; [|done].
      apply find_path_replaced; [done|]. cbn.
      apply find_some in Hfind as [_ Hpath]. by apply String.eqb_eq.
  - intros [= <- <-]. cbn. split; [|done]. by apply find_path_snoc.
Qed.

(** A document whose stored checksum is that of the content is handed
    back as it is, and its passages are not deleted. *)
Lemma add_document_same_checksum path content mime lang ttl ds doc :
  DocumentStore.get_document path ds = Some doc ->
  DocumentStore.checksum doc = sha256 content ->
  DocumentStore.add_document sha256 path_name path content mime lang ttl ds
  = (doc, ds).
Proof.
  intros Hget Hsum. unfold DocumentStore.add_document.
  rewrite Hget. unfold DocumentStore.compute_checksum.
  by rewrite Hsum, String.eqb_refl.
Qed.
End Store.

Lemma get_chunks_add_chunks id chunks ds :
  length (DocumentStore.get_chunks id (DocumentStore.add_chunks id chunks ds))
  = length (DocumentStore.get_chunks id ds) + length chunks.
Proof.
  unfold DocumentStore.get_chunks, DocumentStore.add_chunks. cbn.
  rewrite List.filter_app, length_app. f_equal.
  rewrite forallb_filter_id; [by rewrite length_imap|].
  apply forallb_forall. intros r Hr. apply list_elem_of_In in Hr.
  apply elem_of_lookup_imap in Hr as (i & c & -> & _). cbn.
  apply Nat.eqb_refl.
Qed.

Lemma match_nonempty {A B} (l : list A) (x y : B) :
  l <> [] -> match l with [] => x | _ :: _ => y end = y.
Proof. by destruct l. Qed.

Section Reingest.
Variable read_file : string -> FileStatus.
Variable sha256 : string -> string.
Variable path_name : string -> string.
Variable detect : string -> option string.
Variable embed : string -> VectorStore.vector.
Variable tfidf_cosine : list string -> option (nat -> nat -> Q).
Variables settings_chunk_size settings_chunk_overlap : Z.

Local Abbreviation ingest_file :=
  (ingest_file read_file sha256 path_name detect embed tfidf_cosine
     settings_chunk_size settings_chunk_overlap).
Local Abbreviation index_content :=
  (index_content sha256 path_name detect embed tfidf_cosine
     settings_chunk_size settings_chunk_overlap).

(** The passages [ingest_file] stores for a content under a document
    id. *)
Definition passages_of (c : Content) (doc_id : nat)
  : list Chunker.Chunk :=
  Dedup.deduplicate_chunks tfidf_cosine
    (chunker_chunk_text settings_chunk_size settings_chunk_overlap
       (Preprocessor.process (text c))
       {[ "document_id"%string := Z.of_nat doc_id ]})
    0.9.

Definition embedding_ids_of (doc_id : nat) (chunks : list Chunker.Chunk)
  : list string :=
  map (embedding_id_of doc_id) (seq 0 (length chunks)).

Lemma stored_chunks_length doc_id (chunks : list Chunker.Chunk) :
  length (zip_with with_embedding_id chunks (embedding_ids_of doc_id chunks))
  = length chunks.
Proof.
  rewrite length_zip_with. unfold embedding_ids_of.
  rewrite length_map, length_seq. lia.
Qed.

Lemma metadata_fits_pipeline doc_id (md : gmap string Z)
    (chunks : list Chunker.Chunk) :
  VectorStoreSpec.metadata_fits (Some (map (fun _ => md) chunks))
    (embedding_ids_of doc_id chunks).
Proof.
  unfold VectorStoreSpec.metadata_fits, embedding_ids_of.
  destruct chunks as [|c chunks]; [done|].
  cbn [map]. rewrite length_map, length_seq. cbn. rewrite length_map. lia.
Qed.

(** What [index_content] does once the document is in the store with
    the checksum of the processed text: the same document comes back,
    its passages are embedded and stored once more. *)
Lemma index_content_again path c st doc :
  DocumentStore.get_document path (docs st) = Some doc ->
  DocumentStore.checksum doc = sha256 (Preprocessor.process (text c)) ->
  passages_of c (DocumentStore.doc_id doc) <> [] ->
  exists st',
    index_content path c st
    = (Success (DocumentStore.doc_id doc)
         (length (passages_of c (DocumentStore.doc_id doc)))
         (detect (Preprocessor.process (text c))), st')
    /\ VectorStore.ntotal (vectors st')
       = VectorStore.ntotal (vectors st)
         + length (passages_of c (DocumentStore.doc_id doc))
    /\ passage_count (DocumentStore.doc_id doc) st'
       = passage_count (DocumentStore.doc_id doc) st
         + length (passages_of c (DocumentStore.doc_id doc)).
Proof.
  intros Hget Hsum Hne. unfold index_content.
  rewrite (add_document_same_checksum sha256 path_name path _ _ _ _ _ doc)
    by done.
  fold (passages_of c (DocumentStore.doc_id doc)).
  set (chunks := passages_of c (DocumentStore.doc_id doc)) in *.
  rewrite match_nonempty by done.
  fold (embedding_ids_of (DocumentStore.doc_id doc) chunks).
  destruct (VectorStoreSpec.add_embeddings_grows embed
              (map Chunker.c_text chunks)
              (embedding_ids_of (DocumentStore.doc_id doc) chunks)
              (Some (map (fun _ => ({[ "document_id"%string :=
                                         Z.of_nat (DocumentStore.doc_id doc) ]}
                                      : gmap string Z)) chunks))
              (vectors st)) as (vs' & Heq & Hindex).
  { apply metadata_fits_pipeline. }
  rewrite Heq. eexists. split; [|split].
  - by rewrite stored_chunks_length.
  - cbn [vectors]. unfold VectorStore.ntotal.
    by rewrite Hindex, length_app, !length_map.
  - unfold passage_count. cbn [docs].
    by rewrite get_chunks_add_chunks, stored_chunks_length.
Qed.

(** What a successful [index_content] leaves behind. *)
Lemma index_content_success path c st document_id n lang st' :
  index_content path c st = (Success document_id n lang, st') ->
  exists doc,
    DocumentStore.get_document path (docs st') = Some doc
    /\ DocumentStore.doc_id doc = document_id
    /\ DocumentStore.checksum doc
       = sha256 (Preprocessor.process (text c))
    /\ passages_of c document_id <> []
    /\ n = length (passages_of c document_id)
    /\ lang = detect (Preprocessor.process (text c)).
Proof.
  unfold index_content.
  destruct (DocumentStore.add_document _ _ _ _ _ _ _ _)
    as [doc docs1] eqn:Hadd.
  apply add_document_stored in Hadd as [Hget Hsum].
  fold (passages_of c (DocumentStore.doc_id doc)).
  set (chunks := passages_of c (DocumentStore.doc_id doc)) in *.
  destruct (decide (chunks = [])) as [->|Hne]; [done|].
  rewrite match_nonempty by done.
  fold (embedding_ids_of (DocumentStore.doc_id doc) chunks).
  destruct (VectorStore.add_embeddings _ _ _ _ _) as [vs'|exn vs'];
    [|done].
  intros [= <- <- <- <-]. exists doc. cbn [docs].
  split; [exact Hget|]. split; [done|]. split; [exact Hsum|].
  split; [exact Hne|]. split; [|done].
  by rewrite stored_chunks_length.
Qed.

(** C1, at a failing input.  [ingest_file] compares the stored checksum,
    which [add_document] took of the preprocessed text, with the checksum
    of the raw text.  For a file whose text preprocessing changes (and
    whose two checksums differ), a second [ingest_file] after a successful
    first one is not reported unchanged: it succeeds again with the same
    passages, the dense index grows by their number, and so does the number
    of passages stored for the document. *)
Theorem reingest_indexes_again path c st0 st1 document_id n lang :
  read_file path = Parsed (Some c) ->
  sha256 (text c) <> sha256 (Preprocessor.process (text c)) ->
  ingest_file path false st0 = (Success document_id n lang, st1) ->
  exists st2,
    ingest_file path false st1 = (Success document_id n lang, st2)
    /\ 0 < n
    /\ VectorStore.ntotal (vectors st2)
       = VectorStore.ntotal (vectors st1) + n
    /\ passage_count document_id st2
       = passage_count document_id st1 + n.
Proof.
  intros Hread Hsums Hfirst. unfold Pipeline.ingest_file in *.
  rewrite Hread in *.
  destruct (String.eqb (text c) Py.empty) eqn:Hempty; [done|].
  destruct (negb false && _) in Hfirst; [done|].
  apply index_content_success in Hfirst
    as (doc & Hget & <- & Hsum & Hne & -> & ->).
  rewrite Hget. unfold DocumentStore.compute_checksum.
  assert (String.eqb (DocumentStore.checksum doc) (sha256 (text c)) = false)
    as ->.
  { apply String.eqb_neq. congruence. }
  cbn [negb andb].
  destruct (index_content_again path c st1 doc Hget Hsum Hne)
    as (st2 & Hrun & Hvectors & Hpassages).
  exists st2. split; [exact Hrun|]. split; [|by split].
  destruct (passages_of c (DocumentStore.doc_id doc)); [done|cbn; lia].
Qed.
(** When preprocessing leaves the checksum of the text as it is, the second
    call is the no-op the duplicate check is there for. *)
Lemma reingest_unchanged path c st0 st1 document_id n lang :
  read_file path = Parsed (Some c) ->
  sha256 (text c) = sha256 (Preprocessor.process (text c)) ->
  ingest_file path false st0 = (Success document_id n lang, st1) ->
  ingest_file path false st1 = (Unchanged, st1).
Proof.
  intros Hread Hsums Hfirst. unfold Pipeline.ingest_file in *.
  rewrite Hread in *.
  destruct (String.eqb (text c) Py.empty) eqn:Hempty; [done|].
  destruct (negb false && _) in Hfirst; [done|].
  apply index_content_success in Hfirst
    as (doc & Hget & _ & Hsum & _).
  rewrite Hget. unfold DocumentStore.compute_checksum.
  by rewrite Hsum, Hsums, String.eqb_refl.
Qed.

End Reingest.

(** A text file that ends with a line break, as text files do. *)
Definition note_body : string :=
  "The engine returns the passages that are most relevant to a query. It keeps a dense index and a lexical index.".

Definition note_text : string :=
  (note_body +:+ String Preprocessor.newline Py.empty)%string.

Definition note_file (path : string) : FileStatus :=
  Parsed (Some {| text := note_text; content_mime_type := None;
                  content_title := None |}).

(** Stand-ins for the collaborators: an injective checksum, a detector
    that answers English, an embedder with one component, and a
    vectorizer that raises. *)
Definition ingest_note (st : State) : Result * State :=
  ingest_file note_file (fun t => t) (fun p => p)
    (fun _ => Some "en"%string) (fun _ => [0%Z]) (fun _ => None)
    512 50 "notes/a.txt" false st.

Definition empty_state : State :=
  {| docs := DocumentStore.empty;
     vectors := VectorStore.fresh;
     disk := {| VectorStore.index_file := VectorStore.Absent;
                VectorStore.id_map_file := VectorStore.Absent |} |}.

Lemma reingest_indexes_again_witness :
  fst (ingest_note empty_state) = Success 1 1 (Some "en"%string)
  /\ exists st2,
       ingest_note (snd (ingest_note empty_state))
       = (Success 1 1 (Some "en"%string), st2)
       /\ 0 < 1
       /\ VectorStore.ntotal (vectors st2)
          = VectorStore.ntotal (vectors (snd (ingest_note empty_state))) + 1
       /\ passage_count 1 st2
          = passage_count 1 (snd (ingest_note empty_state)) + 1.
Proof.
  split; [vm_compute; reflexivity|].
  apply (reingest_indexes_again note_file (fun t => t) (fun p => p)
           (fun _ => Some "en"%string) (fun _ => [0%Z]) (fun _ => None)
           512 50 "notes/a.txt"
           {| text := note_text; content_mime_type := None;
              content_title := None |}
           empty_state).
  - reflexivity.
  - vm_compute. discriminate.
  - vm_compute. reflexivity.
Defined.
End PipelineSpec.

(** * Further properties of the code *)

(** ** More on the text primitives and the cleaning steps *)

Module TextFacts.

Lemma chars_str l : Py.chars (Py.str l) = l.
Proof. apply String.list_ascii_of_string_of_list_ascii. Qed.

Lemma lstrip_chars_suffix l : Py.lstrip_chars l `suffix_of` l.
Proof.
  induction l as [|c l IH]; cbn; [done|].
  destruct (Py.isspace c); [by apply suffix_cons_r|done].
Qed.

Lemma lstrip_chars_head l c :
  head (Py.lstrip_chars l) = Some c -> Py.isspace c = false.
Proof.
  induction l as [|c' l IH]; cbn; [done|].
  destruct (Py.isspace c') eqn:Hc'; [exact IH|]. cbn. by intros [= <-].
Qed.

Lemma lstrip_chars_fixed l :
  (forall c, head l = Some c -> Py.isspace c = false) ->
  Py.lstrip_chars l = l.
Proof.
  destruct l as [|c l]; [done|]. cbn. intros Hhead.
  by rewrite (Hhead c eq_refl).
Qed.

Lemma lstrip_chars_Forall (P : ascii -> Prop) l :
  Forall P l -> Forall P (Py.lstrip_chars l).
Proof.
  induction 1 as [|c l Hc Hl IH]; cbn; [constructor|].
  destruct (Py.isspace c); [exact IH|by constructor].
Qed.

Lemma strip_chars_Forall (P : ascii -> Prop) l :
  Forall P l -> Forall P (Py.strip_chars l).
Proof.
  intros Hl. unfold Py.strip_chars.
  apply Forall_rev, lstrip_chars_Forall, Forall_rev.
  by apply lstrip_chars_Forall.
Qed.

Lemma suffix_last_head (r m : list ascii) c :
  r `suffix_of` rev m -> head (rev r) = Some c -> head m = Some c.
Proof.
  intros [pre Hpre] Hhead.
  assert (m = rev r ++ rev pre) as ->.
  { rewrite <- rev_app_distr, <- Hpre. by rewrite rev_involutive. }
  destruct (rev r); [done|]. exact Hhead.
Qed.

(** Stripping twice is stripping once. *)
Lemma strip_chars_idemp l : Py.strip_chars (Py.strip_chars l) = Py.strip_chars l.
Proof.
  unfold Py.strip_chars.
  set (m := Py.lstrip_chars l). set (r := Py.lstrip_chars (rev m)).
  rewrite (lstrip_chars_fixed (rev r)).
  - rewrite rev_involutive. f_equal. apply lstrip_chars_fixed.
    intros c. apply lstrip_chars_head.
  - intros c Hc. apply (lstrip_chars_head l).
    eapply suffix_last_head; [apply lstrip_chars_suffix|exact Hc].
Qed.

Lemma collapse_spaces_plain in_run l :
  Forall (fun c => Py.isspace c = true -> c = " "%char)
    (Chunker.collapse_spaces in_run l).
Proof.
  revert in_run. induction l as [|c l IH]; intros in_run; cbn; [constructor|].
  destruct (Py.isspace c) eqn:Hc.
  - destruct in_run; [apply IH|]. constructor; [done|apply IH].
  - constructor; [congruence|apply IH].
Qed.

End TextFacts.

Module ChunkerFacts.
Import Chunker.

End ChunkerFacts.

Module SentenceFacts.
Import Chunker.

(** *** The overlap loop *)

Lemma sum_len_snoc l s : sum_len (l ++ [s]) = sum_len l + Py.len s.
Proof. rewrite SentenceMode.sum_len_app. unfold sum_len. cbn. lia. Qed.

Lemma sum_len_rev l : sum_len (rev l) = sum_len l.
Proof.
  induction l as [|s l IH]; [done|]. cbn [rev]. rewrite sum_len_snoc, IH.
  unfold sum_len. cbn. lia.
Qed.

(** The loop reads a prefix of the reversed chunk and stops behind the
    first sentence with which the sizes read reach the overlap. *)
Lemma overlap_loop_reads overlap l n acc :
  exists read rest,
    l = read ++ rest
    /\ overlap_loop overlap l n acc = rev read ++ acc
    /\ (l <> [] -> read <> [])
    /\ (overlap <= n + sum_len read \/ rest = [])
    /\ (forall read' x, read = read' ++ [x] -> read' <> [] ->
                        n + sum_len read' < overlap).
Proof.
  revert n acc. induction l as [|s l IH]; intros n acc.
  - exists [], []. split; [done|]. split; [done|]. split; [done|].
    split; [by right|]. intros read' x Heq. by destruct read'.
  - cbn [overlap_loop]. destruct (overlap <=? n + Py.len s) eqn:Hreach.
    + exists [s], l. split; [done|]. split; [done|]. split; [done|].
      split.
      { left. apply Z.leb_le in Hreach. unfold sum_len. cbn [foldr]. lia. }
      intros read' x Heq Hne. destruct read' as [|y [|z read']]; done.
    + apply Z.leb_gt in Hreach.
      destruct (IH (n + Py.len s) (s :: acc))
        as (read & rest & -> & Heq & _ & Hsum & Hmin).
      exists (s :: read), rest. split; [done|]. split.
      { rewrite Heq. cbn [rev]. by rewrite <- app_assoc. }
      split; [done|]. split.
      { destruct Hsum as [Hsum | ->]; [left|by right].
        unfold sum_len in *. cbn [foldr]. lia. }
      intros read' x Heq' Hne.
      destruct read' as [|y read']; [done|]. injection Heq' as <- Hread.
      destruct read' as [|z read'].
      { unfold sum_len. cbn [foldr]. lia. }
      specialize (Hmin (z :: read') x Hread ltac:(done)).
      unfold sum_len in *. cbn [foldr] in *. lia.
Qed.



(** *** Every sentence enters one chunk *)

Section Partition.
Variable cfg : ChunkConfig.

(** A chunk as the sentences it carries over and the sentences that are
    new in it. *)
Definition Part : Type := list string * list string.

Definition group_of (p : Part) : list string := fst p ++ snd p.

(** Each part starts with what the overlap loop keeps of the part before
    it, the first with nothing, and has a new sentence. *)
Fixpoint parts_ok (prev : option (list string)) (parts : list Part)
  : Prop :=
  match parts with
  | [] => True
  | p :: rest =>
      fst p = SentenceMode.carried cfg prev /\ snd p <> []
      /\ parts_ok (Some (group_of p)) rest
  end.

Definition last_group (prev : option (list string)) (parts : list Part)
  : option (list string) :=
  match last parts with
  | Some p => Some (group_of p)
  | None => prev
  end.

Lemma last_group_cons prev p parts :
  last_group prev (p :: parts) = last_group (Some (group_of p)) parts.
Proof.
  unfold last_group. destruct parts as [|p' parts]; [done|].
  rewrite last_cons. by destruct (last (p' :: parts)).
Qed.

Lemma parts_ok_snoc prev parts p :
  parts_ok prev parts ->
  fst p = SentenceMode.carried cfg (last_group prev parts) ->
  snd p <> [] ->
  parts_ok prev (parts ++ [p]).
Proof.
  revert prev. induction parts as [|p0 parts IH]; intros prev Hparts Hfst Hsnd.
  - cbn in *. auto.
  - destruct Hparts as (H1 & H2 & Hrest). cbn [app parts_ok].
    split; [done|]. split; [done|]. apply IH; [done| |done].
    by rewrite <- last_group_cons with (prev := prev).
Qed.

Lemma last_group_snoc prev parts p :
  last_group prev (parts ++ [p]) = Some (group_of p).
Proof. unfold last_group. by rewrite last_snoc. Qed.

(** The loop variables after the non-empty sentences [seen]. *)
Definition partition_inv (st : SentState) (seen : list string) : Prop :=
  exists parts c f,
    map text (chunks st) = map (fun p => Py.join_space (group_of p)) parts
    /\ parts_ok None parts
    /\ current_chunk st = c ++ f
    /\ c = SentenceMode.carried cfg (last_group None parts)
    /\ (f = [] -> parts = [])
    /\ concat (map snd parts) ++ f = seen.

Definition keep_sentence (s : string) : bool :=
  negb (String.eqb (Py.strip s) Py.empty).

Lemma sentence_step_partition st seen sentence :
  partition_inv st seen ->
  partition_inv (sentence_step cfg st sentence)
    (seen ++ (if keep_sentence sentence then [Py.strip sentence] else [])).
Proof.
  intros (parts & c & f & Htext & Hparts & Hcur & Hc & Hf & Hseen).
  unfold sentence_step, keep_sentence.
  destruct (String.eqb (Py.strip sentence) Py.empty) eqn:Hempty; cbn [negb].
  { rewrite app_nil_r. by exists parts, c, f. }
  set (s := Py.strip sentence).
  destruct ((chunk_size cfg <? current_size st + Py.len s)
            && negb (bool_decide (current_chunk st = []))) eqn:Hemit.
  - apply andb_true_iff in Hemit as [_ Hne].
    apply negb_true_iff, bool_decide_eq_false in Hne.
    assert (Hf' : f <> []).
    { intros ->. rewrite (Hf eq_refl) in Hc. cbn in Hc. subst c.
      by rewrite app_nil_r in Hcur. }
    exists (parts ++ [(c, f)]),
      (SentenceMode.carried cfg (Some (current_chunk st))), [s].
    assert (Hkept :
      SentenceMode.carried cfg (Some (current_chunk st))
      = SentenceMode.carried cfg (last_group None (parts ++ [(c, f)]))).
    { rewrite last_group_snoc. unfold group_of. cbn [fst snd].
      by rewrite <- Hcur. }
    assert (Hseen' : concat (map snd (parts ++ [(c, f)])) ++ [s]
                     = seen ++ [s]).
    { rewrite <- Hseen, map_app, concat_app. cbn. by rewrite app_nil_r. }
    assert (Htext' :
      map text (chunks st ++ [span_of (current_chunk st) (start_pos st)])
      = map (fun p => Py.join_space (group_of p)) (parts ++ [(c, f)])).
    { rewrite !map_app, Htext. cbn [map].
      change (group_of (c, f)) with (c ++ f). by rewrite <- Hcur. }
    assert (Hparts' : parts_ok None (parts ++ [(c, f)]))
      by (by apply parts_ok_snoc).
    assert (Hcarried :
      SentenceMode.carried cfg (Some (current_chunk st))
      = if 0 <? chunk_overlap cfg
        then overlap_loop (chunk_overlap cfg) (rev (current_chunk st)) 0 []
        else []) by done.
    rewrite Hcarried at 1.
    destruct (0 <? chunk_overlap cfg); cbn [chunks current_chunk];
      (split; [exact Htext'|]); (split; [exact Hparts'|]);
      (split; [done|]); (split; [exact Hkept|]); (split; [done|]);
      exact Hseen'.
  - exists parts, c, (f ++ [s]). cbn [chunks current_chunk].
    split; [done|]. split; [done|].
    split; [by rewrite Hcur, app_assoc|]. split; [done|].
    split; [by destruct f|]. by rewrite app_assoc, Hseen.
Qed.

Lemma sentence_loop_partition sentences :
  partition_inv (sentence_loop cfg sentences)
    (List.filter (fun s => negb (String.eqb s Py.empty))
       (map Py.strip sentences)).
Proof.
  unfold sentence_loop.
  assert (Hinit : partition_inv
                    {| chunks := []; current_chunk := [];
                       current_size := 0; start_pos := 0 |} []).
  { exists [], [], []. cbn. auto 10. }
  revert Hinit.
  generalize ({| chunks := []; current_chunk := [];
                 current_size := 0; start_pos := 0 |}).
  enough (forall seen st,
            partition_inv st seen ->
            partition_inv (foldl (sentence_step cfg) st sentences)
              (seen ++ List.filter (fun s => negb (String.eqb s Py.empty))
                         (map Py.strip sentences))) as Hgen.
  { intros st Hst. apply (Hgen [] st Hst). }
  induction sentences as [|s sentences IH]; intros seen st Hst.
  - cbn. by rewrite app_nil_r.
  - cbn [foldl map List.filter].
    pose proof (sentence_step_partition st seen s Hst) as Hstep.
    apply IH in Hstep. unfold keep_sentence in Hstep.
    destruct (String.eqb (Py.strip s) Py.empty); cbn [negb] in *.
    + by rewrite app_nil_r in Hstep.
    + by rewrite <- app_assoc in Hstep.
Qed.

Lemma finish_sentences_partition st seen :
  partition_inv st seen ->
  exists parts,
    map text (finish_sentences st)
    = map (fun p => Py.join_space (group_of p)) parts
    /\ parts_ok None parts
    /\ concat (map snd parts) = seen.
Proof.
  intros (parts & c & f & Htext & Hparts & Hcur & Hc & Hf & Hseen).
  unfold finish_sentences. case_bool_decide as Hnil.
  - exists parts. split; [done|]. split; [done|].
    rewrite Hnil in Hcur. symmetry in Hcur.
    apply app_eq_nil in Hcur as [_ ->]. by rewrite app_nil_r in Hseen.
  - assert (Hf' : f <> []).
    { intros ->. rewrite (Hf eq_refl) in Hc. cbn in Hc. subst c.
      by rewrite app_nil_r in Hcur. }
    exists (parts ++ [(c, f)]). rewrite !map_app, Htext. cbn [map].
    change (group_of (c, f)) with (c ++ f). rewrite <- Hcur.
    split; [done|]. split; [by apply parts_ok_snoc|].
    rewrite <- Hseen, concat_app. cbn. by rewrite app_nil_r.
Qed.
End Partition.

(** The sentences of a text that are not empty once stripped. *)
Definition nonempty_sentences (t : string) : list string :=
  List.filter (fun s => negb (String.eqb s Py.empty))
    (SentenceMode.sentences_of t).


End SentenceFacts.

Module SizeFacts.
Import Chunker.

Section Windows.
Variable cfg : ChunkConfig.
Variable t : string.

(** A span is the stripped window of the text at its offsets, and is not
    shorter than the minimum. *)
Definition window_ok (sp : Span) : Prop :=
  text sp = Py.strip (Py.slice t (start sp) (end_ sp))
  /\ min_chunk_size cfg <= Py.len (text sp).

Lemma size_step_windows st :
  Forall window_ok (sz_chunks st) ->
  match size_step cfg t st with
  | Again st' => Forall window_ok (sz_chunks st')
  | Leave result => Forall window_ok result
  end.
Proof.
  intros Hall. unfold size_step.
  destruct (negb (sz_start st <? Py.len t)); [exact Hall|].
  set (end0 := Z.min (sz_start st + chunk_size cfg) (Py.len t)).
  set (end1 := if respect_word_boundary cfg && (end0 <? Py.len t)
               then _ else end0).
  set (chunk := Py.strip (Py.slice t (sz_start st) end1)).
  assert (Hchunks :
    Forall window_ok
      (if min_chunk_size cfg <=? Py.len chunk
       then sz_chunks st
              ++ [{| text := chunk; start := sz_start st; end_ := end1 |}]
       else sz_chunks st)).
  { destruct (min_chunk_size cfg <=? Py.len chunk) eqn:Hmin; [|exact Hall].
    apply Forall_app. split; [exact Hall|]. constructor; [|constructor].
    split; [done|]. cbn. by apply Z.leb_le. }
  destruct (Py.len t <=? end1); exact Hchunks.
Qed.

Lemma size_loop_windows fuel st result :
  Forall window_ok (sz_chunks st) ->
  size_loop fuel cfg t st = Some result ->
  Forall window_ok result.
Proof.
  revert st. induction fuel as [|fuel IH]; intros st Hall; [done|].
  cbn [size_loop]. pose proof (size_step_windows st Hall) as Hstep.
  destruct (size_step cfg t st) as [st'|res].
  - by apply IH.
  - by intros [= <-].
Qed.
End Windows.

Lemma decorate_Forall (P : Chunk -> Prop) (Q : Span -> Prop) md spans k :
  (forall i sp, Q sp -> P (decorate md i sp)) ->
  Forall Q spans ->
  Forall P (imap (fun i => decorate md (k + i)%nat) spans).
Proof.
  intros HPQ Hall. revert k.
  induction Hall as [|sp spans Hsp Hall IH]; intros k; [constructor|].
  cbn. constructor; [by apply HPQ|].
  rewrite (imap_ext _ (fun i => decorate md (S k + i)%nat)); [apply IH|].
  intros i x _. cbn. f_equal. lia.
Qed.


(** *** Termination without word boundaries *)

Section Progress.
Variable cfg : ChunkConfig.
Variable t : string.
Hypothesis Hword : respect_word_boundary cfg = false.
Hypothesis Hoverlap : 0 <= chunk_overlap cfg < chunk_size cfg.

Lemma size_step_advances st :
  0 <= sz_start st ->
  match size_step cfg t st with
  | Again st' => sz_start st < sz_start st' /\ sz_start st < Py.len t
  | Leave _ => True
  end.
Proof.
  intros Hstart. unfold size_step. rewrite Hword. cbn [andb].
  destruct (sz_start st <? Py.len t) eqn:Hin; cbn [negb]; [|done].
  apply Z.ltb_lt in Hin.
  destruct (Py.len t <=? Z.min (sz_start st + chunk_size cfg) (Py.len t))
    eqn:Hend; [done|].
  apply Z.leb_gt in Hend. cbn [sz_start]. split; [|done].
  match goal with |- context [if ?g then _ else _] => destruct g end; lia.
Qed.

Lemma size_loop_returns fuel st :
  0 <= sz_start st ->
  Z.max 0 (Py.len t - sz_start st) < Z.of_nat fuel ->
  is_Some (size_loop fuel cfg t st).
Proof.
  revert st. induction fuel as [|fuel IH]; intros st Hstart Hfuel; [lia|].
  cbn [size_loop]. pose proof (size_step_advances st Hstart) as Hstep.
  destruct (size_step cfg t st) as [st'|res]; [|eauto].
  destruct Hstep as [Hlt Hin]. apply IH; lia.
Qed.

(** Fuel beyond what the loop needs does not change its result. *)
Lemma size_loop_more_fuel fuel fuel' st result :
  (fuel <= fuel')%nat ->
  size_loop fuel cfg t st = Some result ->
  size_loop fuel' cfg t st = Some result.
Proof.
  revert fuel' st. induction fuel as [|fuel IH]; intros fuel' st Hle; [done|].
  destruct fuel' as [|fuel']; [lia|]. cbn [size_loop].
  destruct (size_step cfg t st) as [st'|res]; [|done].
  apply IH. lia.
Qed.
End Progress.


(** Windows of 100 characters that overlap by 20 and are cut anywhere. *)
Definition plain_window_config : ChunkConfig :=
  {| chunk_size := 100; chunk_overlap := 20; min_chunk_size := 100;
     respect_sentence_boundary := false; respect_word_boundary := false |}.


End SizeFacts.

Module DedupFacts.
Import Dedup.
Local Open Scope nat_scope.

(** *** Exact duplicates *)

Section Exact.
Variable sha256 : string -> string.
Variable Signature : Type.

(** The answers of [is_duplicate_exact] to a sequence of texts. *)
Fixpoint exact_answers (texts : list string) (d : Deduplicator Signature)
  : list bool :=
  match texts with
  | [] => []
  | t :: rest =>
      let '(answer, d') := is_duplicate_exact sha256 t d in
      answer :: exact_answers rest d'
  end.

Lemma exact_answers_lookup texts d k t :
  texts !! k = Some t ->
  exact_answers texts d !! k
  = Some (bool_decide (sha256 t ∈ seen_hashes _ d)
          || bool_decide (sha256 t ∈ map sha256 (take k texts))).
Proof.
  revert d k. induction texts as [|t0 texts IH]; intros d k Hk; [done|].
  cbn [exact_answers]. unfold is_duplicate_exact.
  destruct k as [|k].
  - injection Hk as ->. cbn [take map].
    rewrite (bool_decide_eq_false_2 (_ ∈ [])) by apply not_elem_of_nil.
    rewrite orb_false_r. by case_bool_decide.
  - cbn [lookup] in Hk. cbn [take map].
    case_bool_decide as Hseen; cbn -[union]; rewrite (IH _ _ Hk);
      cbn [seen_hashes]; f_equal.
    + destruct (bool_decide (sha256 t ∈ seen_hashes _ d)) eqn:Hd; [done|].
      cbn [orb]. apply bool_decide_eq_false in Hd.
      apply bool_decide_ext. rewrite elem_of_cons.
      split; [auto|]. intros [Heq|H]; [|done]. by rewrite Heq in Hd.
    + rewrite <- !bool_decide_or. apply bool_decide_ext.
      rewrite elem_of_union, elem_of_singleton, elem_of_cons. tauto.
Qed.

End Exact.


(** *** Near duplicates *)

Section Fuzzy.
Variable Signature : Type.
Variable minhash : string -> Signature.
Variable collide : Signature -> Signature -> bool.

Lemma lsh_query_snoc (l : LSH Signature) key m m' :
  collide m m' = true ->
  lsh_query Signature collide (l ++ [(key, m)]) m' <> [].
Proof.
  intros Hc. unfold lsh_query. rewrite List.filter_app, map_app. cbn.
  rewrite Hc. cbn. intros H. by apply app_eq_nil in H as [_ ?].
Qed.

End Fuzzy.


(** *** Batches *)

Section Batches.
Variable sim : nat -> nat -> Q.
Variable thr : Q.
Variable n : nat.

Lemma elem_of_similar_after i j :
  j ∈ similar_after sim thr n i
  <-> i < j < n /\ Qle_bool thr (sim i j) = true.
Proof.
  unfold similar_after. rewrite list_elem_of_In, filter_In.
  rewrite <- list_elem_of_In, elem_of_seq. intuition lia.
Qed.

(** An index is dropped when it is in a group behind the group's first
    index. *)
Definition dropped (groups : list (list nat)) (j : nat) : Prop :=
  exists g, g ∈ groups /\ j ∈ tail g.

(** What holds once the indices below [k] have been visited: the visited
    indices that are not dropped have all their later similar indices
    dropped. *)
Definition covered (k : nat) (acc : list (list nat) * gset nat) : Prop :=
  (forall x, x ∈ snd acc -> exists g, g ∈ fst acc /\ x ∈ g)
  /\ (forall g, g ∈ fst acc -> exists i js, g = i :: js /\ i < k)
  /\ (forall i, i < k -> ~ dropped (fst acc) i ->
        forall j, j ∈ similar_after sim thr n i -> dropped (fst acc) j).

Lemma dropped_app groups g j :
  dropped groups j -> dropped (groups ++ [g]) j.
Proof.
  intros (g' & Hg' & Hj). exists g'. split; [|done].
  apply elem_of_app. by left.
Qed.

Lemma group_step_covered k acc :
  covered k acc -> covered (S k) (group_step sim thr n acc k).
Proof.
  destruct acc as [groups processed]. intros (Hproc & Hhead & Hcov).
  cbn [fst snd] in *. unfold group_step. case_bool_decide as Hseen.
  { unfold covered. cbn [fst snd]. split; [done|]. split.
    - intros g Hg. destruct (Hhead g Hg) as (i & js & -> & Hi).
      exists i, js. split; [done|lia].
    - intros i Hi Hkeep. assert (i < k \/ i = k) as [Hlt| ->] by lia;
        [by apply (Hcov i)|].
      exfalso. apply Hkeep.
      destruct (Hproc k Hseen) as (g & Hg & Hk).
      destruct (Hhead g Hg) as (i & js & -> & Hi').
      exists (i :: js). split; [done|]. cbn [tail].
      apply elem_of_cons in Hk as [->|Hk]; [lia|done]. }
  destruct (similar_after sim thr n k) as [|j0 js0] eqn:Hjs0.
  { unfold covered. cbn [fst snd]. split.
    - intros x Hx. apply Hproc.
      apply elem_of_union in Hx as [Hx|Hx]; [|done].
      by apply elem_of_list_to_set, elem_of_nil in Hx.
    - split.
      + intros g Hg. destruct (Hhead g Hg) as (i & js & -> & Hi).
        exists i, js. split; [done|lia].
      + intros i Hi Hkeep. assert (i < k \/ i = k) as [Hlt| ->] by lia;
          [by apply (Hcov i)|].
        rewrite Hjs0. by intros j ?%elem_of_nil. }
  unfold covered. cbn [fst snd]. split.
  - intros x Hx.
    apply elem_of_union in Hx as [Hx|Hx].
    { apply elem_of_singleton in Hx as ->. exists (k :: j0 :: js0).
      split; [apply elem_of_app; right; apply list_elem_of_singleton; done|].
      left. }
    apply elem_of_union in Hx as [Hx|Hx].
    { apply elem_of_list_to_set in Hx. exists (k :: j0 :: js0).
      split; [apply elem_of_app; right; apply list_elem_of_singleton; done|].
      by right. }
    destruct (Hproc x Hx) as (g & Hg & Hin). exists g.
    split; [apply elem_of_app; by left|done].
  - split.
    + intros g Hg. apply elem_of_app in Hg as [Hg|Hg].
      * destruct (Hhead g Hg) as (i & js & -> & Hi).
        exists i, js. split; [done|lia].
      * apply list_elem_of_singleton in Hg as ->.
        exists k, (j0 :: js0). split; [done|lia].
    + intros i Hi Hkeep. assert (i < k \/ i = k) as [Hlt| ->] by lia.
      * intros j Hj. apply dropped_app. apply (Hcov i); [done| |done].
        intros Hd. apply Hkeep. by apply dropped_app.
      * rewrite Hjs0. intros j Hj. exists (k :: j0 :: js0).
        split; [apply elem_of_app; right; apply list_elem_of_singleton; done|].
        done.
Qed.

Lemma group_loop_covered k :
  covered k (foldl (group_step sim thr n) ([], ∅) (seq 0 k)).
Proof.
  induction k as [|k IH].
  - split; [by intros x ?%elem_of_empty|].
    split; [by intros g ?%elem_of_nil|]. intros i Hi. lia.
  - rewrite seq_S, foldl_app. cbn [foldl]. by apply group_step_covered.
Qed.
End Batches.

Section WithVectorizer.
Variable tfidf_cosine : list string -> option (nat -> nat -> Q).

Lemma survivors_sublist {A} (marked : gset nat) (chunks : list A) k :
  map snd
    (List.filter (fun p => negb (bool_decide (fst p ∈ marked)))
       (imap (fun i => pair (k + i)) chunks))
  `sublist_of` chunks.
Proof.
  revert k. induction chunks as [|c chunks IH]; intros k; [done|].
  cbn [imap List.filter].
  assert (Htl : imap ((fun i => pair (k + i)) ∘ S) chunks
                = imap (fun i => pair (S k + i)) chunks).
  { apply imap_ext. intros i x _. cbn. f_equal. lia. }
  rewrite Htl. destruct (negb _); cbn [map snd].
  - apply sublist_skip, IH.
  - apply sublist_cons, IH.
Qed.

Lemma keep_unmarked_sublist {A} (marked : gset nat) (chunks : list A) :
  keep_unmarked marked chunks `sublist_of` chunks.
Proof. apply (survivors_sublist marked chunks 0). Qed.

Lemma zero_not_removed texts thr :
  0 ∉ to_remove (find_similar_chunks tfidf_cosine texts thr).
Proof.
  rewrite DedupSpec.elem_of_to_remove. intros (g & Hg & Hin).
  destruct (DedupSpec.find_similar_chunks_heads _ _ _ _ Hg)
    as (i & js & -> & _ & Hlt & _).
  cbn [tail] in Hin. apply Hlt in Hin. lia.
Qed.


End WithVectorizer.

Definition twin_batch : list Chunker.Chunk :=
  [DedupSpec.plain_chunk 0 "A duplicate sentence.";
   DedupSpec.plain_chunk 1 "A duplicate sentence.";
   DedupSpec.plain_chunk 2 "Something else."].

End DedupFacts.

Module VectorStoreFacts.
Import VectorStore.
Import VectorStoreSpec.
Local Open Scope nat_scope.

(** *** What [add_embeddings] maps *)

(** The item [update_id_map] writes for position [i] of the id list. *)
Definition new_item (embedding_ids : list string)
    (metadata : option (list (gmap string Z))) (i : nat) : option Item :=
  eid ← embedding_ids !! i;
  md ← metadata_at metadata i;
  Some {| id := eid; item_metadata := md |}.

Lemma update_id_map_lookup start metadata ids :
  forall i vs vs',
    update_id_map start i ids metadata vs = Returned vs' ->
    index vs' = index vs
    /\ (forall j, j < length ids -> is_Some (metadata_at metadata (i + j)))
    /\ forall k,
         id_map vs' !! k
         = if decide (start + i <= k < start + i + length ids)
           then eid ← ids !! (k - (start + i));
                md ← metadata_at metadata (k - start);
                Some {| id := eid; item_metadata := md |}
           else id_map vs !! k.
Proof.
  induction ids as [|eid ids IH]; intros i vs vs' Hret.
  - injection Hret as <-. split; [done|]. split; [cbn; lia|]. intros k.
    rewrite decide_False; [done|]. cbn. lia.
  - cbn [update_id_map] in Hret.
    destruct (metadata_at metadata i) as [md|] eqn:Hmd; [|done].
    destruct (IH _ _ _ Hret) as (Hindex & Hmds & Hmap). split; [done|].
    split.
    { intros [|j] Hj; [rewrite Nat.add_0_r; eauto|].
      replace (i + S j) with (S i + j) by lia. apply Hmds. cbn in Hj. lia. }
    intros k. rewrite Hmap. cbn [id_map length].
    destruct (decide (start + S i <= k < start + S i + length ids))
      as [Hk|Hk].
    + rewrite decide_True by lia.
      by replace (k - (start + i)) with (S (k - (start + S i))) by lia.
    + destruct (decide (k = start + i)) as [->|Hne].
      * rewrite lookup_insert_eq, decide_True by lia.
        replace (start + i - (start + i)) with 0 by lia.
        replace (start + i - start) with i by lia.
        cbn. by rewrite Hmd.
      * rewrite lookup_insert_ne, decide_False by lia. done.
Qed.

Section AddEmbeddings.
Variable embed : string -> vector.

Lemma add_embeddings_lookup t texts ids metadata vs vs' :
  add_embeddings embed (t :: texts) ids metadata vs = Returned vs' ->
  index vs' = index vs ++ map embed (t :: texts)
  /\ (forall i, i < length ids -> is_Some (metadata_at metadata i))
  /\ forall k,
       id_map vs' !! k
       = if decide (ntotal vs <= k < ntotal vs + length ids)
         then new_item ids metadata (k - ntotal vs)
         else id_map vs !! k.
Proof.
  unfold add_embeddings. intros Hret.
  destruct (update_id_map_lookup _ _ _ _ _ _ Hret) as (Hindex & Hmds & Hmap).
  split; [done|]. split; [exact Hmds|].
  intros k. rewrite Hmap, !Nat.add_0_r. done.
Qed.

End AddEmbeddings.


(** *** What [remove_embeddings] leaves *)

Lemma indices_to_remove_nil ids vs :
  indices_to_remove ids vs = []
  <-> forall k item, id_map vs !! k = Some item -> id item ∉ ids.
Proof.
  split.
  - intros Hnil k item Hk Hid.
    assert (Hin : k ∈ indices_to_remove ids vs)
      by (apply elem_of_indices_to_remove; eauto).
    rewrite Hnil in Hin. by apply elem_of_nil in Hin.
  - intros Hnone. destruct (indices_to_remove ids vs) as [|k l] eqn:Hl;
      [done|].
    assert (Hin : k ∈ indices_to_remove ids vs)
      by (rewrite Hl; apply list_elem_of_here).
    apply elem_of_indices_to_remove in Hin as (item & Hk & Hid).
    by destruct (Hnone k item Hk).
Qed.

Lemma remove_embeddings_lookup_id ids vs r item :
  id_map (remove_embeddings ids vs) !! r = Some item -> id item ∉ ids.
Proof.
  destruct (decide (indices_to_remove ids vs = [])) as [Hnil|Hne].
  { unfold remove_embeddings. rewrite Hnil.
    by apply indices_to_remove_nil. }
  destruct (remove_embeddings_rebuilt ids vs Hne) as [_ Hmap].
  rewrite Hmap.
  destruct (kept_slots ids vs !! r) as [k|] eqn:Hr; [|done]. cbn.
  apply list_elem_of_lookup_2, elem_of_kept_slots in Hr as [_ Hkeep].
  intros Hk Hid. apply Hkeep, elem_of_indices_to_remove. eauto.
Qed.


Lemma lookups_sublist {A} (keep : nat -> bool) (l pre : list A) :
  omap (fun k => (pre ++ l) !! k)
    (List.filter keep (seq (length pre) (length l)))
  `sublist_of` l.
Proof.
  revert pre. induction l as [|x l IH]; intros pre; [done|].
  cbn [length seq List.filter].
  assert (Htl : omap (fun k => (pre ++ x :: l) !! k)
                  (List.filter keep (seq (S (length pre)) (length l)))
                `sublist_of` l).
  { specialize (IH (pre ++ [x])).
    rewrite length_app, <- app_assoc in IH. cbn in IH.
    by rewrite Nat.add_1_r in IH. }
  destruct (keep (length pre)).
  - cbn. rewrite list_lookup_middle by done. cbn.
    by apply sublist_skip.
  - by apply sublist_cons.
Qed.


(** *** Adding and removing *)

Lemma lookups_all {A} (l more : list A) :
  omap (fun k => (l ++ more) !! k) (seq 0 (length l)) = l.
Proof.
  revert more. induction l as [|x l IH] using rev_ind; intros more; [done|].
  rewrite length_app. cbn [length]. rewrite Nat.add_1_r, seq_S, omap_app.
  rewrite <- app_assoc, IH. cbn. by rewrite list_lookup_middle.
Qed.

Lemma filter_all {A} (f : A -> bool) (l : list A) :
  (forall x, In x l -> f x = true) -> List.filter f l = l.
Proof.
  induction l as [|x l IH]; intros Hall; [done|]. cbn.
  rewrite (Hall x) by (by left). f_equal. apply IH.
  intros y Hy. apply Hall. by right.
Qed.

Lemma filter_none {A} (f : A -> bool) (l : list A) :
  (forall x, In x l -> f x = false) -> List.filter f l = [].
Proof.
  induction l as [|x l IH]; intros Hall; [done|]. cbn.
  rewrite (Hall x) by (by left). apply IH.
  intros y Hy. apply Hall. by right.
Qed.

Section RoundTrip.
Variable embed : string -> vector.

End RoundTrip.


(** *** Search *)

Lemma omap_length_le {A B} (f : A -> option B) (l : list A) :
  length (omap f l) <= length l.
Proof.
  induction l as [|x l IH]; [done|]. cbn. destruct (f x); cbn; lia.
Qed.

Section Search.
Variable embed_query : string -> vector.
Variable index_search : list vector -> vector -> Z -> list (Z * float).

Lemma search_hit_Some threshold vs hit eid score md :
  search_hit threshold vs hit = Some (eid, score, md)
  <-> (0 <= fst hit)%Z /\ (threshold <=? snd hit)%float = true
      /\ score = snd hit
      /\ id_map vs !! Z.to_nat (fst hit)
         = Some {| id := eid; item_metadata := md |}.
Proof.
  unfold search_hit. destruct hit as [idx distance]. cbn [fst snd].
  destruct (0 <=? idx)%Z eqn:Hidx; cbn [andb].
  2:{ apply Z.leb_gt in Hidx. split; [done|]. lia. }
  apply Z.leb_le in Hidx.
  destruct (threshold <=? distance)%float eqn:Hthr.
  2:{ split; [done|]. by intros (_ & ? & _). }
  destruct (id_map vs !! Z.to_nat idx) as [[eid' md']|]; cbn [id item_metadata].
  - split.
    + intros [= -> -> ->]. done.
    + intros (_ & _ & -> & [= -> ->]). done.
  - split; [done|]. by intros (_ & _ & _ & ?).
Qed.


End Search.

(** A flat index that answers with every row, at score 1. *)
Definition every_row (rows : list vector) (q : vector) (k : Z)
  : list (Z * float) :=
  imap (fun i _ => (Z.of_nat i, 1%float)) rows.

End VectorStoreFacts.

Module SliceFacts.
Local Open Scope nat_scope.

Lemma list_upto_take {A} (n : Z) (l : list A) :
  exists m, Py.list_upto n l = take m l.
Proof. unfold Py.list_upto. eauto. Qed.

Lemma list_upto_nonneg {A} (n : Z) (l : list A) :
  (0 <= n)%Z -> Py.list_upto n l = take (Z.to_nat n) l.
Proof.
  intros Hn. unfold Py.list_upto, Py.adjust.
  rewrite (proj2 (Z.ltb_ge _ _)) by done.
  destruct (decide (n <= Z.of_nat (length l))%Z) as [Hle|Hgt].
  - by rewrite Z.min_l.
  - rewrite Z.min_r, Nat2Z.id by lia. rewrite !take_ge; [done|lia|lia].
Qed.

Lemma list_upto_all {A} (n : Z) (l : list A) :
  (Z.of_nat (length l) <= n)%Z -> Py.list_upto n l = l.
Proof.
  intros Hn. rewrite list_upto_nonneg by lia. apply take_ge. lia.
Qed.

Lemma list_upto_sublist {A} (n : Z) (l : list A) :
  Py.list_upto n l `sublist_of` l.
Proof. unfold Py.list_upto. apply sublist_take. Qed.
End SliceFacts.

Module RetrievalFacts.
Import Retrieval SliceFacts.
Local Open Scope nat_scope.

(** *** The keys of [combined_scores] *)

Lemma dict_set_keys k v d :
  map fst (dict_set k v d)
  = if bool_decide (k ∈ map fst d) then map fst d else map fst d ++ [k].
Proof.
  induction d as [|[k' v'] d IH]; cbn [dict_set map fst].
  - by rewrite bool_decide_eq_false_2 by apply not_elem_of_nil.
  - destruct (String.eqb k k') eqn:Hk.
    + apply String.eqb_eq in Hk as ->. cbn [map fst].
      by rewrite bool_decide_eq_true_2 by apply list_elem_of_here.
    + apply String.eqb_neq in Hk. cbn [map fst]. rewrite IH.
      case_bool_decide as Hin.
      * by rewrite bool_decide_eq_true_2 by (by apply list_elem_of_further).
      * rewrite bool_decide_eq_false_2; [done|].
        by intros [?|?]%elem_of_cons.
Qed.

(** The keys are distinct, and they are the old keys and [k]. *)
Lemma dict_set_keys_ok k v d :
  NoDup (map fst d) ->
  NoDup (map fst (dict_set k v d))
  /\ forall x, x ∈ map fst (dict_set k v d) <-> x = k \/ x ∈ map fst d.
Proof.
  intros Hnd. rewrite dict_set_keys. case_bool_decide as Hin.
  - split; [done|]. intros x. split; [auto|]. by intros [->|?].
  - split.
    + apply NoDup_app. split; [done|]. split.
      * intros x Hx ->%list_elem_of_singleton. done.
      * apply NoDup_singleton.
    + intros x. rewrite elem_of_app, list_elem_of_singleton. tauto.
Qed.

Section Fusion.
Variables vector_weight bm25_weight : float.

Lemma add_vector_results_keys dense d :
  NoDup (map fst d) ->
  NoDup (map fst (add_vector_results vector_weight dense d))
  /\ forall x,
       x ∈ map fst (add_vector_results vector_weight dense d)
       <-> x ∈ map hit_id dense \/ x ∈ map fst d.
Proof.
  revert d. induction dense as [|h dense IH]; intros d Hnd.
  - split; [done|]. intros x. cbn. split; [auto|].
    intros [H|H]; [by apply elem_of_nil in H|done].
  - unfold add_vector_results in *. cbn [foldl map].
    destruct (dict_set_keys_ok (hit_id h)
                (vector_weight * hit_score h)%float d Hnd) as [Hnd' Hkeys].
    destruct (IH _ Hnd') as [Hnd'' Hkeys'']. split; [done|].
    intros x. rewrite Hkeys'', Hkeys, elem_of_cons. tauto.
Qed.

Lemma add_bm25_results_keys lexical d :
  NoDup (map fst d) ->
  NoDup (map fst (add_bm25_results bm25_weight lexical d))
  /\ forall x,
       x ∈ map fst (add_bm25_results bm25_weight lexical d)
       <-> x ∈ map hit_id lexical \/ x ∈ map fst d.
Proof.
  revert d. induction lexical as [|h lexical IH]; intros d Hnd.
  - split; [done|]. intros x. cbn. split; [auto|].
    intros [H|H]; [by apply elem_of_nil in H|done].
  - unfold add_bm25_results in *. cbn [foldl map].
    destruct (dict_get (hit_id h) d) as [old|].
    + destruct (dict_set_keys_ok (hit_id h)
                  (old + bm25_weight * min_one (hit_score h))%float d Hnd)
        as [Hnd' Hkeys].
      destruct (IH _ Hnd') as [Hnd'' Hkeys'']. split; [done|].
      intros x. rewrite Hkeys'', Hkeys, elem_of_cons. tauto.
    + destruct (dict_set_keys_ok (hit_id h)
                  (bm25_weight * min_one (hit_score h))%float d Hnd)
        as [Hnd' Hkeys].
      destruct (IH _ Hnd') as [Hnd'' Hkeys'']. split; [done|].
      intros x. rewrite Hkeys'', Hkeys, elem_of_cons. tauto.
Qed.

Lemma combined_scores_keys dense lexical :
  NoDup (map fst (combined_scores vector_weight bm25_weight dense lexical))
  /\ forall x,
       x ∈ map fst (combined_scores vector_weight bm25_weight dense lexical)
       <-> x ∈ map hit_id dense \/ x ∈ map hit_id lexical.
Proof.
  unfold combined_scores.
  destruct (add_vector_results_keys dense []) as [Hnd1 Hk1];
    [constructor|].
  destruct (add_bm25_results_keys lexical _ Hnd1) as [Hnd2 Hk2].
  split; [done|]. intros x. rewrite Hk2, Hk1. cbn.
  rewrite elem_of_nil. tauto.
Qed.

End Fusion.
End RetrievalFacts.

Module HybridRetrieverFacts.
Import HybridRetriever FloatOrder SliceFacts.
Local Open Scope nat_scope.

(** *** The stable sort by decreasing key *)

(** [b], which comes later, does not beat [a]. *)
Definition ranked {A} (key : A -> float) (a b : A) : Prop :=
  (key a <? key b)%float = false.

Lemma insert_by_perm {A} (key : A -> float) x l :
  insert_by key x l ≡ₚ x :: l.
Proof.
  induction l as [|y l IH]; cbn; [done|].
  destruct (key x <? key y)%float; [|done].
  rewrite IH. apply Permutation_swap.
Qed.

Lemma insert_by_sorted {A} (key : A -> float) x l :
  number (key x) -> Forall (fun y => number (key y)) l ->
  StronglySorted (ranked key) l ->
  StronglySorted (ranked key) (insert_by key x l).
Proof.
  intros Hx Hl Hsorted. induction Hsorted as [|y l Hsorted IH Hy]; cbn.
  - by repeat constructor.
  - apply Forall_cons in Hl as [Hny Hl].
    destruct (key x <? key y)%float eqn:Hlt.
    + constructor; [by apply IH|]. rewrite insert_by_perm.
      constructor; [|exact Hy]. by apply ltb_asym.
    + constructor; [by constructor|].
      constructor; [exact Hlt|].
      rewrite Forall_forall in Hy, Hl. apply Forall_forall. intros z Hz.
      apply (ltb_negtrans _ (key y)); auto. by apply Hy.
Qed.

Lemma sort_desc_by_perm {A} (key : A -> float) l : sort_desc_by key l ≡ₚ l.
Proof.
  induction l as [|x l IH]; cbn; [done|]. by rewrite insert_by_perm, IH.
Qed.

Lemma sort_desc_by_sorted {A} (key : A -> float) l :
  Forall (fun y => number (key y)) l ->
  StronglySorted (ranked key) (sort_desc_by key l).
Proof.
  induction l as [|x l IH]; cbn; [constructor|].
  intros [Hx Hl]%Forall_cons. apply insert_by_sorted; [done| |by apply IH].
  fold (sort_desc_by key l). by rewrite sort_desc_by_perm.
Qed.

Lemma sublist_sorted {A} (R : A -> A -> Prop) l1 l2 :
  l1 `sublist_of` l2 -> StronglySorted R l2 -> StronglySorted R l1.
Proof.
  induction 1 as [|x l1 l2 Hsub IH|x l1 l2 Hsub IH]; intros Hsorted.
  - constructor.
  - apply StronglySorted_inv in Hsorted as [Hsorted Hx].
    constructor; [by apply IH|].
    apply Forall_forall. intros y Hy. rewrite Forall_forall in Hx.
    apply Hx. by eapply elem_of_sublist.
  - apply StronglySorted_inv in Hsorted as [Hsorted _]. by apply IH.
Qed.

(** *** [rerank] *)

(** What [rerank] makes of a result: the new score in [score] and
    [rerank_score], the old one in [original_score]. *)
Definition rescored_from (predict : string -> string -> float)
    (query : string) (res o : Result) : Prop :=
  chunk o = chunk res /\ document o = document res
  /\ score o = predict query (DocumentStore.row_text (chunk res))
  /\ rerank_score o = Some (score o)
  /\ original_score o = Some (score res).


(** *** [search] *)

Section WithCollaborators.
Variable embed_query : string -> VectorStore.vector.
Variable index_search
  : list VectorStore.vector -> VectorStore.vector -> Z -> list (Z * float).
Variable bm25_scores : list string -> string -> list float.
Variable argsort : list float -> list nat.

(** A result that stands for a stored chunk and its stored document. *)
Definition resolved (ds : DocumentStore.t) (o : Result) : Prop :=
  chunk o ∈ DocumentStore.chunk_rows ds
  /\ document o ∈ DocumentStore.documents ds
  /\ DocumentStore.doc_id (document o)
     = DocumentStore.document_id (chunk o)
  /\ is_Some (DocumentStore.row_embedding_id (chunk o)).

(** The embedding id and the score of a result. *)
Definition key_of (o : Result) : option string * float :=
  (DocumentStore.row_embedding_id (chunk o), score o).

Lemma find_Some_elem {A} (f : A -> bool) l x :
  List.find f l = Some x -> x ∈ l /\ f x = true.
Proof.
  intros H. apply List.find_some in H as [Hin Hf].
  by apply list_elem_of_In in Hin.
Qed.

Lemma resolve_Some ds c o :
  resolve ds c = Some o ->
  resolved ds o /\ key_of o = (Some (fst c), snd c).
Proof.
  unfold resolve, DocumentStore.get_chunk_by_embedding_id,
    DocumentStore.get_document_by_id.
  destruct (List.find _ (DocumentStore.chunk_rows ds)) as [row|] eqn:Hrow;
    [|done]. cbn.
  destruct (List.find _ (DocumentStore.documents ds)) as [doc|] eqn:Hdoc;
    [|done]. cbn. intros [= <-].
  apply find_Some_elem in Hrow as [Hrow Heid].
  apply find_Some_elem in Hdoc as [Hdoc Hid].
  apply bool_decide_eq_true in Heid. apply Nat.eqb_eq in Hid.
  unfold resolved, key_of. cbn. rewrite Heid. by repeat split.
Qed.

Lemma resolved_all ds candidates :
  Forall (resolved ds) (omap (resolve ds) candidates)
  /\ map key_of (omap (resolve ds) candidates)
     `sublist_of` map (fun c => (Some (fst c), snd c)) candidates.
Proof.
  induction candidates as [|c candidates [IH1 IH2]]; [by split|].
  cbn. destruct (resolve ds c) as [o|] eqn:Ho; cbn.
  - apply resolve_Some in Ho as [Hres Hkey]. split.
    + by constructor.
    + rewrite Hkey. by apply sublist_skip.
  - split; [done|]. by apply sublist_cons.
Qed.

Lemma Forall_upto {A} (P : A -> Prop) (n : Z) (l : list A) :
  Forall P l -> Forall P (Py.list_upto n l).
Proof.
  intros Hl. apply Forall_forall. intros x Hx.
  rewrite Forall_forall in Hl. apply Hl.
  exact (elem_of_sublist _ _ _ Hx (list_upto_sublist _ _)).
Qed.

Lemma rerank_resolved ds r query results top_k :
  Forall (resolved ds) results ->
  Forall (resolved ds) (rerank r query results top_k).
Proof.
  intros Hres. unfold rerank.
  destruct (reranker r) as [predict|]; [|by apply Forall_upto].
  destruct results as [|res0 results]; [by apply Forall_upto|].
  apply Forall_upto, Forall_forall. intros o Ho.
  rewrite sort_desc_by_perm in Ho.
  apply list_elem_of_fmap in Ho as (res & -> & Hin).
  rewrite Forall_forall in Hres. apply (Hres res Hin).
Qed.

End WithCollaborators.

(** *** A store with one document of two passages *)

Definition sample_document : DocumentStore.Document :=
  {| DocumentStore.doc_id := 1;
     DocumentStore.file_path := "notes/a.txt";
     DocumentStore.filename := "a.txt";
     DocumentStore.file_size := 10;
     DocumentStore.mime_type := "text/plain";
     DocumentStore.checksum := "c";
     DocumentStore.language := None;
     DocumentStore.title := "a.txt" |}.

Definition sample_row (i : nat) (eid t : string) : DocumentStore.ChunkRow :=
  {| DocumentStore.document_id := 1;
     DocumentStore.row_index := i;
     DocumentStore.row_text := t;
     DocumentStore.row_start := 0;
     DocumentStore.row_end := Py.len t;
     DocumentStore.row_page := None;
     DocumentStore.row_metadata := ∅;
     DocumentStore.row_embedding_id := Some eid |}.

Definition sample_store : DocumentStore.t :=
  {| DocumentStore.documents := [sample_document];
     DocumentStore.chunk_rows :=
       [sample_row 0 "d1_c0" "alpha"; sample_row 1 "d1_c1" "beta"] |}.

Definition sample_result (i : nat) (eid t : string) (s : float) : Result :=
  {| chunk := sample_row i eid t; document := sample_document; score := s;
     rerank_score := None; original_score := None |}.

(** A cross-encoder that prefers the second passage. *)
Definition prefers_beta (query t : string) : float :=
  if String.eqb t "beta" then 0.9%float else 0.2%float.

Definition sample_retriever (predict : option (string -> string -> float))
  : Retriever :=
  {| vector_weight := 0.7; bm25_weight := 0.3; bm25_built := false;
     chunk_texts := []; chunk_ids := []; reranker := predict |}.


End HybridRetrieverFacts.

Module DocumentStoreFacts.
Import DocumentStore.
Local Open Scope nat_scope.

Lemma new_id_fresh ds d : d ∈ documents ds -> doc_id d < new_id ds.
Proof.
  unfold new_id. induction (documents ds) as [|d' l IH]; cbn.
  - by intros ?%elem_of_nil.
  - intros [->|Hin]%elem_of_cons; [lia|]. specialize (IH Hin). lia.
Qed.

Lemma rows_after_delete id id' (rows : list ChunkRow) :
  List.filter (fun r => document_id r =? id')
    (List.filter (fun r => negb (document_id r =? id)) rows)
  = if id' =? id then []
    else List.filter (fun r => document_id r =? id') rows.
Proof.
  induction rows as [|r rows IH]; cbn; [by destruct (id' =? id)|].
  destruct (document_id r =? id) eqn:Hid; cbn.
  - rewrite IH. destruct (id' =? id) eqn:Hid'; [done|].
    apply Nat.eqb_eq in Hid. apply Nat.eqb_neq in Hid'.
    rewrite (proj2 (Nat.eqb_neq _ _)); [done|]. congruence.
  - rewrite IH. destruct (document_id r =? id') eqn:Hr; [|done].
    apply Nat.eqb_eq in Hr. apply Nat.eqb_neq in Hid.
    rewrite (proj2 (Nat.eqb_neq id' id)); [done|]. congruence.
Qed.

Lemma get_chunks_after_delete id id' ds rows :
  chunk_rows ds
  = List.filter (fun r => negb (document_id r =? id)) rows ->
  get_chunks id' ds
  = if id' =? id then []
    else List.filter (fun r => document_id r =? id') rows.
Proof. intros Hrows. unfold get_chunks. rewrite Hrows. apply rows_after_delete. Qed.

Section WithHash.
Variable sha256 : string -> string.
Variable path_name : string -> string.

End WithHash.

End DocumentStoreFacts.

Module PipelineFacts.
Import Pipeline.
Local Open Scope nat_scope.

(** *** [delete_document] *)

Lemma embedding_ids_in_nil rows :
  embedding_ids_in rows = [] -> forall x, x ∉ embedding_ids_in rows.
Proof. intros ->. apply not_elem_of_nil. Qed.

End PipelineFacts.

Module IngestFacts.
Import Pipeline.
Local Open Scope nat_scope.

(** *** [ingest_directory] *)

(** How many files of the report have a status. *)
Definition count_status (status : string) (files : list (string * string))
  : nat :=
  length (List.filter (fun p => String.eqb (snd p) status) files).

Lemma count_status_snoc status files path s :
  count_status status (files ++ [(path, s)])
  = count_status status files + (if String.eqb s status then 1 else 0).
Proof.
  unfold count_status. rewrite List.filter_app, length_app. cbn.
  by destruct (String.eqb s status).
Qed.

(** The counters agree with the list of files. *)
Definition counted (results : DirectoryResults) : Prop :=
  success results = count_status "success" (files results)
  /\ skipped results
     = count_status "skipped" (files results)
       + count_status "unchanged" (files results)
  /\ failed results = count_status "error" (files results)
  /\ success results + skipped results + failed results
     = length (files results).

Section WithCollaborators.
Variable read_file : string -> FileStatus.
Variable sha256 : string -> string.
Variable path_name : string -> string.
Variable detect : string -> option string.
Variable embed : string -> VectorStore.vector.
Variable tfidf_cosine : list string -> option (nat -> nat -> Q).
Variables settings_chunk_size settings_chunk_overlap : Z.

Local Abbreviation ingest_file :=
  (ingest_file read_file sha256 path_name detect embed tfidf_cosine
     settings_chunk_size settings_chunk_overlap).
Local Abbreviation index_content :=
  (index_content sha256 path_name detect embed tfidf_cosine
     settings_chunk_size settings_chunk_overlap).
Local Abbreviation directory_step :=
  (directory_step read_file sha256 path_name detect embed tfidf_cosine
     settings_chunk_size settings_chunk_overlap).
Local Abbreviation ingest_directory :=
  (ingest_directory read_file sha256 path_name detect embed tfidf_cosine
     settings_chunk_size settings_chunk_overlap).

Lemma directory_step_counted results st entry :
  counted results ->
  let results' := fst (directory_step (results, st) entry) in
  counted results'
  /\ total results' = total results
  /\ map fst (files results')
     = map fst (files results) ++ (if snd entry then [fst entry] else []).
Proof.
  intros (Hs & Hk & Hf & Hsum). unfold Pipeline.directory_step.
  destruct entry as [path is_file]. cbn [fst snd].
  destruct is_file; [|by rewrite app_nil_r].
  destruct (ingest_file path false st) as [result st'].
  unfold counted.
  destruct result; cbn [status_of String.eqb Ascii.eqb Bool.eqb orb fst
                         total success skipped failed files];
    rewrite !count_status_snoc, map_app, length_app; cbn; repeat split; lia.
Qed.

Lemma directory_loop_counted listing results st :
  counted results ->
  let results' := fst (foldl directory_step (results, st) listing) in
  counted results'
  /\ total results' = total results
  /\ map fst (files results')
     = map fst (files results) ++ map fst (List.filter snd listing).
Proof.
  revert results st. induction listing as [|entry listing IH];
    intros results st Hc; cbn zeta.
  { cbn. by rewrite app_nil_r. }
  cbn [foldl].
  destruct (directory_step_counted results st entry Hc) as (Hc1 & Ht1 & Hf1).
  destruct (directory_step (results, st) entry) as [results1 st1].
  cbn [fst] in *.
  destruct (IH results1 st1 Hc1) as (Hc2 & Ht2 & Hf2).
  split; [done|]. split; [congruence|].
  rewrite Hf2, Hf1, <- app_assoc. f_equal. cbn [List.filter].
  by destruct (snd entry).
Qed.


(** *** [ingest_file] *)

Lemma update_id_map_index start i ids metadata vs :
  VectorStore.index
    (VectorStore.state_after
       (VectorStore.update_id_map start i ids metadata vs))
  = VectorStore.index vs.
Proof.
  revert i vs. induction ids as [|eid ids IH]; intros i vs; [done|].
  cbn [VectorStore.update_id_map].
  destruct (VectorStore.metadata_at metadata i); [|done].
  by rewrite IH.
Qed.

Lemma add_embeddings_prefix texts ids metadata vs :
  VectorStore.index vs
  `prefix_of`
  VectorStore.index
    (VectorStore.state_after
       (VectorStore.add_embeddings embed texts ids metadata vs)).
Proof.
  unfold VectorStore.add_embeddings. destruct texts as [|t texts]; [done|].
  rewrite update_id_map_index. cbn. by eexists.
Qed.

Lemma index_content_effects path c st result st' :
  index_content path c st = (result, st') ->
  VectorStore.index (vectors st) `prefix_of` VectorStore.index (vectors st')
  /\ (exists doc,
        DocumentStore.get_document path
          (snd (DocumentStore.add_document sha256 path_name path
                  (Preprocessor.process (text c))
                  (default "text/plain"%string (content_mime_type c))
                  (detect (Preprocessor.process (text c)))
                  (content_title c) (docs st)))
        = Some doc
        /\ DocumentStore.checksum doc
           = sha256 (Preprocessor.process (text c))
        /\ DocumentStore.get_document path (docs st') = Some doc
        /\ match result with
           | Success id n _ => id = DocumentStore.doc_id doc /\ 0 < n
           | _ => True
           end)
  /\ match result with
     | Success _ _ _ => VectorStore.load (disk st') = vectors st'
     | Error _ => disk st' = disk st
     | Skipped _ | Unchanged => False
     end.
Proof.
  unfold Pipeline.index_content.
  destruct (DocumentStore.add_document _ _ _ _ _ _ _ _) as [document docs1]
    eqn:Hadd.
  apply PipelineSpec.add_document_stored in Hadd as [Hget Hsum].
  cbn [snd].
  set (chunks := Dedup.deduplicate_chunks _ _ _).
  destruct chunks as [|c0 chunks'] eqn:Hchunks.
  { intros [= <- <-]. cbn. split; [done|]. split; [eauto|done]. }
  rewrite <- Hchunks.
  pose proof (add_embeddings_prefix (map Chunker.c_text chunks)
    (map (embedding_id_of (DocumentStore.doc_id document))
       (seq 0 (length chunks)))
    (Some (map (fun _ => ({[ "document_id"%string
                             := Z.of_nat (DocumentStore.doc_id document) ]}
                          : gmap string Z)) chunks))
    (vectors st)) as Hprefix.
  destruct (VectorStore.add_embeddings _ _ _ _ _) as [vs|exn vs];
    intros [= <- <-]; cbn [vectors disk docs VectorStore.state_after] in *.
  - split; [done|]. split.
    + exists document. split; [done|]. split; [done|]. split; [done|].
      split; [done|]. rewrite length_zip_with, length_map, length_seq.
      rewrite Hchunks. cbn. lia.
    + apply VectorStoreSpec.save_round_trip.
  - split; [done|]. split; [eauto|done].
Qed.


End WithCollaborators.


(** A file whose text is shorter than the smallest chunk. *)
Definition short_content : Content :=
  {| text := "A short note."; content_mime_type := None;
     content_title := None |}.

Definition short_file (path : string) : FileStatus :=
  Parsed (Some short_content).

Definition ingest_short (st : State) : Result * State :=
  ingest_file short_file (fun t => t) (fun p => p)
    (fun _ => Some "en"%string) (fun _ => [0%Z]) (fun _ => None)
    512 50 "notes/b.txt" false st.

End IngestFacts.

Module PreprocessorFacts.
Import Preprocessor.

Lemma split_on_plain sep cur l :
  Forall (fun c => c <> sep) l -> split_on sep cur l = [rev cur ++ l].
Proof.
  revert cur. induction l as [|c l IH]; intros cur Hl; cbn.
  - by rewrite app_nil_r.
  - apply Forall_cons in Hl as [Hc Hl].
    rewrite (proj2 (Ascii.eqb_neq _ _) Hc), IH by done. cbn.
    by rewrite <- app_assoc.
Qed.

(** The white-space pattern turns every line break into a space, so the
    text is one line when the lines are stripped. *)
Lemma normalize_whitespace_one_line l :
  normalize_whitespace l
  = Py.strip_chars (Chunker.collapse_spaces false l).
Proof.
  unfold normalize_whitespace. rewrite split_on_plain; [done|].
  eapply Forall_impl; [apply (TextFacts.collapse_spaces_plain false l)|].
  intros c Hc ->. by specialize (Hc eq_refl).
Qed.

Lemma printable_or_space c :
  (Py.isspace c = true -> c = " "%char) ->
  isprintable c || Ascii.eqb c newline || Ascii.eqb c tab = true ->
  isprintable c = true.
Proof.
  intros Hspace Hkeep.
  apply orb_true_iff in Hkeep as [Hkeep|Htab].
  - apply orb_true_iff in Hkeep as [Hkeep|Hnl]; [done|].
    apply Ascii.eqb_eq in Hnl as ->. by specialize (Hspace eq_refl).
  - apply Ascii.eqb_eq in Htab as ->. by specialize (Hspace eq_refl).
Qed.

End PreprocessorFacts.

